(** * A bounded priority queue for FreeRTOS tasks

    Shallow embedding of [priority_queue.c] and verification of its
    specification.  The repository holds two copies of the file; both are
    embedded through one parameter of type [copy]:

    - [app_src]  is [app/src/priority_queue.c];
    - [part_001] is the second copy of [priority_queue.c].

    The copies differ in three places: the comparison of [_heapifyUp] and
    [_heapifyDown] ([moves_up]), the initial count of the event semaphore
    ([initial_count]) and the take of the mutex in
    [xPriorityQueueReceive].

    The C [int] indices are integers of [Z]; the division of
    [(index - 1) / 2] truncates toward zero and is [Z.quot].  No index or
    size of a queue within its capacity comes near the range of [int].
    The array [events] is a list, read and written through checked
    accessors: an access outside the array is the outcome [OutOfBounds].
    The recursive heap repairs take a [fuel] argument, and running out of
    it is the outcome [OutOfFuel].  A call runs alone: a wait for a
    semaphore that is not available expires, and with [portMAX_DELAY] it
    is the outcome [BlocksForever]. *)

From Stdlib Require Import ZArith Lia Sorted String Ascii.
From stdpp Require Import base option list.

Local Open Scope Z_scope.

Ltac Zify.zify_post_hook ::= Z.to_euclidean_division_equations.

(** ** Outcomes of a call *)

Inductive outcome (A : Type) : Type :=
| Returns (a : A)
| OutOfBounds
| OutOfFuel
| BlocksForever.

Arguments Returns {A} a.
Arguments OutOfBounds {A}.
Arguments OutOfFuel {A}.
Arguments BlocksForever {A}.

#[global] Instance outcome_bind : MBind outcome := fun A B k m =>
  match m with
  | Returns a => k a
  | OutOfBounds => OutOfBounds
  | OutOfFuel => OutOfFuel
  | BlocksForever => BlocksForever
  end.

(** ** The two copies of the source file *)

Inductive copy : Type := app_src | part_001.

(** ** priority_queue.h *)

Inductive pq_priority_t : Type := LOW_PRIORITY | MEDIUM_PRIORITY | HIGH_PRIORITY.

(** The integer value of an enumerator, which is what [<] and [>] compare. *)
Definition enum_value (p : pq_priority_t) : Z :=
  match p with
  | LOW_PRIORITY => 0
  | MEDIUM_PRIORITY => 1
  | HIGH_PRIORITY => 2
  end.

Record pq_event_t : Type := { priority : pq_priority_t }.

Definition PQ_MAX_EVENT_SIZE : Z := 10.

(** ** The FreeRTOS services the queue calls

    A semaphore is its count and the maximum of its count.  No other task
    runs during a call, hence a wait on a semaphore whose count is zero
    ends when its ticks have passed, and with [portMAX_DELAY] it never
    ends. *)

Definition BaseType_t : Type := Z.
Definition TickType_t : Type := Z.

Definition pdFALSE : BaseType_t := 0.
Definition pdTRUE : BaseType_t := 1.
Definition pdFAIL : BaseType_t := pdFALSE.
Definition pdPASS : BaseType_t := pdTRUE.
Definition portMAX_DELAY : TickType_t := 4294967295.

Record SemaphoreHandle_t : Type := { uxCount : Z; uxMaxCount : Z }.

Definition xSemaphoreCreateMutex : SemaphoreHandle_t :=
  {| uxCount := 1; uxMaxCount := 1 |}.

Definition xSemaphoreCreateCounting (uxMax uxInitial : Z) : SemaphoreHandle_t :=
  {| uxCount := uxInitial; uxMaxCount := uxMax |}.

Definition xSemaphoreTake (s : SemaphoreHandle_t) (xTicksToWait : TickType_t)
  : outcome (BaseType_t * SemaphoreHandle_t) :=
  if 0 <? uxCount s then
    Returns (pdTRUE, {| uxCount := uxCount s - 1; uxMaxCount := uxMaxCount s |})
  else if xTicksToWait =? portMAX_DELAY then BlocksForever
  else Returns (pdFALSE, s).

Definition xSemaphoreGive (s : SemaphoreHandle_t) : BaseType_t * SemaphoreHandle_t :=
  if uxCount s <? uxMaxCount s then
    (pdTRUE, {| uxCount := uxCount s + 1; uxMaxCount := uxMaxCount s |})
  else (pdFALSE, s).

(** ** The queue *)

Record pq_handle_t : Type := {
  events : list pq_event_t;
  size : Z;
  mutex : SemaphoreHandle_t;
  eventSemaphore : SemaphoreHandle_t
}.

Definition with_events (pq : pq_handle_t) (ev : list pq_event_t) : pq_handle_t :=
  {| events := ev; size := size pq; mutex := mutex pq;
     eventSemaphore := eventSemaphore pq |}.

Definition with_size (pq : pq_handle_t) (n : Z) : pq_handle_t :=
  {| events := events pq; size := n; mutex := mutex pq;
     eventSemaphore := eventSemaphore pq |}.

Definition with_mutex (pq : pq_handle_t) (m : SemaphoreHandle_t) : pq_handle_t :=
  {| events := events pq; size := size pq; mutex := m;
     eventSemaphore := eventSemaphore pq |}.

Definition with_eventSemaphore (pq : pq_handle_t) (s : SemaphoreHandle_t)
  : pq_handle_t :=
  {| events := events pq; size := size pq; mutex := mutex pq;
     eventSemaphore := s |}.

(** [pq->events[i]] as an rvalue and as an lvalue. *)

Definition load (pq : pq_handle_t) (i : Z) : outcome pq_event_t :=
  if i <? 0 then OutOfBounds
  else match events pq !! Z.to_nat i with
       | Some e => Returns e
       | None => OutOfBounds
       end.

Definition store (pq : pq_handle_t) (i : Z) (e : pq_event_t) : outcome pq_handle_t :=
  if i <? 0 then OutOfBounds
  else match events pq !! Z.to_nat i with
       | Some _ => Returns (with_events pq (<[Z.to_nat i := e]> (events pq)))
       | None => OutOfBounds
       end.

(** [_swap(&pq->events[a], &pq->events[b])] *)
Definition _swap (pq : pq_handle_t) (a b : Z) : outcome pq_handle_t :=
  temp ← load pq a;
  vb ← load pq b;
  pq1 ← store pq a vb;
  store pq1 b temp.

(** The comparison of [_heapifyUp] and [_heapifyDown]: [x] moves toward the
    root past [y].  [app_src] writes [<], [part_001] writes [>]. *)
Definition moves_up (c : copy) (x y : pq_priority_t) : bool :=
  match c with
  | app_src => enum_value x <? enum_value y
  | part_001 => enum_value x >? enum_value y
  end.

Fixpoint _heapifyUp (c : copy) (fuel : nat) (pq : pq_handle_t) (index : Z)
  : outcome pq_handle_t :=
  match fuel with
  | O => OutOfFuel
  | S fuel' =>
      let parentIndex := Z.quot (index - 1) 2 in
      if parentIndex >=? 0 then
        child ← load pq index;
        parent ← load pq parentIndex;
        if moves_up c (priority child) (priority parent) then
          pq1 ← _swap pq index parentIndex;
          _heapifyUp c fuel' pq1 parentIndex
        else Returns pq
      else Returns pq
  end.

(** One of the two tests of [_heapifyDown]:
    [if (child < pq->size && events[child].priority > events[best].priority)]. *)
Definition pick (c : copy) (pq : pq_handle_t) (child best : Z) : outcome Z :=
  if child <? size pq then
    ec ← load pq child;
    eb ← load pq best;
    Returns (if moves_up c (priority ec) (priority eb) then child else best)
  else Returns best.

Fixpoint _heapifyDown (c : copy) (fuel : nat) (pq : pq_handle_t) (index : Z)
  : outcome pq_handle_t :=
  match fuel with
  | O => OutOfFuel
  | S fuel' =>
      let leftChild := 2 * index + 1 in
      let rightChild := 2 * index + 2 in
      best1 ← pick c pq leftChild index;
      best2 ← pick c pq rightChild best1;
      if negb (best2 =? index) then
        pq1 ← _swap pq index best2;
        _heapifyDown c fuel' pq1 best2
      else Returns pq
  end.

(** *** xPriorityQueueCreate

    [world] says which of the three allocations succeed and what the fresh
    block holds; [kernel] counts the blocks and the semaphores in use. *)

Record world : Type := {
  pvPortMalloc_ok : bool;
  xSemaphoreCreateMutex_ok : bool;
  xSemaphoreCreateCounting_ok : bool;
  fresh_block : nat -> pq_event_t
}.

Record kernel : Type := { blocks_in_use : nat; semaphores_in_use : nat }.

Definition pvPortMalloc (w : world) (k : kernel) : option (list pq_event_t) * kernel :=
  if pvPortMalloc_ok w then
    (Some (map (fresh_block w) (seq 0 (Z.to_nat PQ_MAX_EVENT_SIZE))),
     {| blocks_in_use := S (blocks_in_use k);
        semaphores_in_use := semaphores_in_use k |})
  else (None, k).

Definition vPortFree (k : kernel) : kernel :=
  {| blocks_in_use := pred (blocks_in_use k);
     semaphores_in_use := semaphores_in_use k |}.

(** Creation of a semaphore: [ok] says whether the kernel has the memory. *)
Definition create_semaphore (ok : bool) (s : SemaphoreHandle_t) (k : kernel)
  : option SemaphoreHandle_t * kernel :=
  if ok then
    (Some s, {| blocks_in_use := blocks_in_use k;
                semaphores_in_use := S (semaphores_in_use k) |})
  else (None, k).

(** The second argument of [xSemaphoreCreateCounting]: [app_src] passes
    [PQ_MAX_EVENT_SIZE], [part_001] passes [0]. *)
Definition initial_count (c : copy) : Z :=
  match c with
  | app_src => PQ_MAX_EVENT_SIZE
  | part_001 => 0
  end.

Definition xPriorityQueueCreate (c : copy) (w : world) (k : kernel)
  : option pq_handle_t * kernel :=
  match pvPortMalloc w k with
  | (None, k) => (None, k)
  | (Some block, k) =>
      match create_semaphore (xSemaphoreCreateMutex_ok w) xSemaphoreCreateMutex k with
      | (None, k) => (None, vPortFree k)
      | (Some m, k) =>
          match create_semaphore (xSemaphoreCreateCounting_ok w)
                  (xSemaphoreCreateCounting PQ_MAX_EVENT_SIZE (initial_count c)) k with
          | (None, k) => (None, vPortFree k)
          | (Some s, k) =>
              (Some {| events := block; size := 0; mutex := m; eventSemaphore := s |}, k)
          end
      end
  end.

(** The queue a successful [xPriorityQueueCreate] returns. *)
Definition new_queue (c : copy) (block : nat -> pq_event_t) : pq_handle_t :=
  {| events := map block (seq 0 (Z.to_nat PQ_MAX_EVENT_SIZE));
     size := 0;
     mutex := xSemaphoreCreateMutex;
     eventSemaphore := xSemaphoreCreateCounting PQ_MAX_EVENT_SIZE (initial_count c) |}.

(** *** xPriorityQueueSend *)

(** The statements of the send between the capacity test and the gives. *)
Definition enqueue (c : copy) (fuel : nat) (pq : pq_handle_t) (event : pq_event_t)
  : outcome pq_handle_t :=
  pq ← store pq (size pq) event;
  let pq := with_size pq (size pq + 1) in
  _heapifyUp c fuel pq (size pq - 1).

Definition xPriorityQueueSend (c : copy) (fuel : nat) (pq : pq_handle_t)
  (event : pq_event_t) (ticksToWait : TickType_t)
  : outcome (BaseType_t * pq_handle_t) :=
  '(taken, m) ← xSemaphoreTake (mutex pq) ticksToWait;
  if taken =? pdTRUE then
    let pq := with_mutex pq m in
    if PQ_MAX_EVENT_SIZE <=? size pq then
      (* Error: Priority queue is full *)
      let pq := with_mutex pq (snd (xSemaphoreGive (mutex pq))) in
      Returns (pdFAIL, pq)
    else
      pq ← enqueue c fuel pq event;
      let pq := with_eventSemaphore pq (snd (xSemaphoreGive (eventSemaphore pq))) in
      let pq := with_mutex pq (snd (xSemaphoreGive (mutex pq))) in
      Returns (pdPASS, pq)
  else Returns (pdFAIL, pq).

(** *** xPriorityQueueReceive

    [event] is the caller's buffer; it comes back with the call. *)

(** The statements of the receive between the take and the give of the
    mutex. *)
Definition dequeue (c : copy) (fuel : nat) (pq : pq_handle_t) (event : pq_event_t)
  : outcome (pq_event_t * pq_handle_t) :=
  if 0 <? size pq then
    event ← load pq 0;
    last ← load pq (size pq - 1);
    pq ← store pq 0 last;
    let pq := with_size pq (size pq - 1) in
    pq ← _heapifyDown c fuel pq 0;
    Returns (event, pq)
  else Returns (event, pq).

Definition xPriorityQueueReceive (c : copy) (fuel : nat) (pq : pq_handle_t)
  (event : pq_event_t) (ticksToWait : TickType_t)
  : outcome (BaseType_t * pq_event_t * pq_handle_t) :=
  '(signalled, s) ← xSemaphoreTake (eventSemaphore pq) ticksToWait;
  if signalled =? pdTRUE then
    let pq := with_eventSemaphore pq s in
    match c with
    | app_src =>
        (* xSemaphoreTake(pq->mutex, portMAX_DELAY); *)
        '(_, m) ← xSemaphoreTake (mutex pq) portMAX_DELAY;
        let pq := with_mutex pq m in
        '(event, pq) ← dequeue c fuel pq event;
        let pq := with_mutex pq (snd (xSemaphoreGive (mutex pq))) in
        Returns (pdPASS, event, pq)
    | part_001 =>
        (* if (pdTRUE == xSemaphoreTake(pq->mutex, (TickType_t)10U)) *)
        '(taken, m) ← xSemaphoreTake (mutex pq) 10;
        if taken =? pdTRUE then
          let pq := with_mutex pq m in
          '(event, pq) ← dequeue c fuel pq event;
          let pq := with_mutex pq (snd (xSemaphoreGive (mutex pq))) in
          Returns (pdPASS, event, pq)
        else Returns (pdFAIL, event, pq)
    end
  else Returns (pdFAIL, event, pq).

(** ** Sequences of calls

    A task calls send and receive one after the other; between two calls
    another task may take the mutex or give it back. *)

Inductive call : Type :=
| CallSend (event : pq_event_t) (ticksToWait : TickType_t)
| CallReceive (buffer : pq_event_t) (ticksToWait : TickType_t)
| OtherTaskTakesMutex
| OtherTaskGivesMutex.

Inductive reply : Type :=
| SendReply (r : BaseType_t)
| ReceiveReply (r : BaseType_t) (buffer : pq_event_t)
| NoReply.

Definition step (c : copy) (fuel : nat) (pq : pq_handle_t) (k : call)
  : outcome (reply * pq_handle_t) :=
  match k with
  | CallSend event t =>
      '(r, pq) ← xPriorityQueueSend c fuel pq event t;
      Returns (SendReply r, pq)
  | CallReceive buffer t =>
      '(r, buffer, pq) ← xPriorityQueueReceive c fuel pq buffer t;
      Returns (ReceiveReply r buffer, pq)
  | OtherTaskTakesMutex =>
      '(_, m) ← xSemaphoreTake (mutex pq) 0;
      Returns (NoReply, with_mutex pq m)
  | OtherTaskGivesMutex =>
      Returns (NoReply, with_mutex pq (snd (xSemaphoreGive (mutex pq))))
  end.

Fixpoint run (c : copy) (fuel : nat) (pq : pq_handle_t) (ks : list call)
  : outcome (list reply * pq_handle_t) :=
  match ks with
  | [] => Returns ([], pq)
  | k :: ks =>
      '(r, pq) ← step c fuel pq k;
      '(rs, pq) ← run c fuel pq ks;
      Returns (r :: rs, pq)
  end.

Definition low : pq_event_t := {| priority := LOW_PRIORITY |}.
Definition medium : pq_event_t := {| priority := MEDIUM_PRIORITY |}.
Definition high : pq_event_t := {| priority := HIGH_PRIORITY |}.

(** ** Vocabulary of the specification *)

#[global] Instance pq_event_inhabited : Inhabited pq_event_t :=
  populate {| priority := LOW_PRIORITY |}.

(** The event stored at index [i]. *)
Definition cell (pq : pq_handle_t) (i : Z) : pq_event_t :=
  events pq !!! Z.to_nat i.

Definition priority_at (pq : pq_handle_t) (i : Z) : Z :=
  enum_value (priority (cell pq i)).

(** The array has [PQ_MAX_EVENT_SIZE] elements, as its C type says. *)
Definition well_sized (pq : pq_handle_t) : Prop :=
  length (events pq) = Z.to_nat PQ_MAX_EVENT_SIZE.

Definition in_capacity (pq : pq_handle_t) : Prop :=
  0 <= size pq <= PQ_MAX_EVENT_SIZE.

(** The occupied prefix [[0, size)]. *)
Definition occupied (pq : pq_handle_t) : list pq_event_t :=
  take (Z.to_nat (size pq)) (events pq).

(** The array once [_swap] has exchanged the elements at [a] and [b]. *)
Definition exchanged (pq : pq_handle_t) (a b : Z) : pq_handle_t :=
  with_events pq
    (<[Z.to_nat b := cell pq a]> (<[Z.to_nat a := cell pq b]> (events pq))).

(** Max-heap order over the occupied prefix, on children. *)
Definition max_heap (pq : pq_handle_t) : Prop :=
  forall i child : Z,
    0 <= i -> child = 2 * i + 1 \/ child = 2 * i + 2 -> child < size pq ->
    priority_at pq i >= priority_at pq child.

Definition root_is_max (pq : pq_handle_t) : Prop :=
  forall j : Z, 0 <= j < size pq -> priority_at pq 0 >= priority_at pq j.

(** The order each copy keeps: [moves_up c x y] is [key c x > key c y]. *)
Definition key (c : copy) (e : pq_event_t) : Z :=
  match c with
  | app_src => - enum_value (priority e)
  | part_001 => enum_value (priority e)
  end.

Definition key_at (c : copy) (pq : pq_handle_t) (i : Z) : Z := key c (cell pq i).

(** Heap order on parents: no element has a larger key than its parent. *)
Definition heap_order (c : copy) (pq : pq_handle_t) : Prop :=
  forall ch : Z, 1 <= ch < size pq ->
    key_at c pq ch <= key_at c pq (Z.quot (ch - 1) 2).

(** Heap order but for the element at [k], which may exceed its parent. *)
Definition up_hole (c : copy) (pq : pq_handle_t) (k : Z) : Prop :=
  (forall ch : Z, 1 <= ch < size pq -> ch <> k ->
     key_at c pq ch <= key_at c pq (Z.quot (ch - 1) 2)) /\
  (forall ch : Z, 1 <= ch < size pq -> Z.quot (ch - 1) 2 = k -> 1 <= k ->
     key_at c pq ch <= key_at c pq (Z.quot (k - 1) 2)).

(** Heap order but for the element at [k], which its children may exceed. *)
Definition down_hole (c : copy) (pq : pq_handle_t) (k : Z) : Prop :=
  (forall ch : Z, 1 <= ch < size pq -> Z.quot (ch - 1) 2 <> k ->
     key_at c pq ch <= key_at c pq (Z.quot (ch - 1) 2)) /\
  (forall ch : Z, 1 <= ch < size pq -> Z.quot (ch - 1) 2 = k -> 1 <= k ->
     key_at c pq ch <= key_at c pq (Z.quot (k - 1) 2)).

Definition is_mutex (m : SemaphoreHandle_t) : Prop :=
  uxMaxCount m = 1 /\ 0 <= uxCount m <= 1.

Definition is_event_semaphore (s : SemaphoreHandle_t) : Prop :=
  uxMaxCount s = PQ_MAX_EVENT_SIZE /\ 0 <= uxCount s <= PQ_MAX_EVENT_SIZE.

(** What every call keeps, in both copies. *)
Definition invariant (c : copy) (pq : pq_handle_t) : Prop :=
  well_sized pq /\ in_capacity pq /\ heap_order c pq /\
  is_mutex (mutex pq) /\ is_event_semaphore (eventSemaphore pq).

(** A state is reachable when a sequence of calls leads to it from the
    queue that [xPriorityQueueCreate] returns. *)
Definition reachable (c : copy) (pq : pq_handle_t) : Prop :=
  exists (block : nat -> pq_event_t) (fuel : nat) (ks : list call) (rs : list reply),
    run c fuel (new_queue c block) ks = Returns (rs, pq).

(** Counting the calls that returned [pdPASS]. *)
Fixpoint sends_passed (rs : list reply) : Z :=
  match rs with
  | [] => 0
  | SendReply r :: rs => (if r =? pdPASS then 1 else 0) + sends_passed rs
  | _ :: rs => sends_passed rs
  end.

Fixpoint receives_passed (rs : list reply) : Z :=
  match rs with
  | [] => 0
  | ReceiveReply r _ :: rs => (if r =? pdPASS then 1 else 0) + receives_passed rs
  | _ :: rs => receives_passed rs
  end.

(** The index [_heapifyDown] settles on after its two tests. *)
Definition best_of (c : copy) (pq : pq_handle_t) (k : Z) : Z :=
  let best1 :=
    if (2 * k + 1 <? size pq) && (key_at c pq k <? key_at c pq (2 * k + 1))
    then 2 * k + 1 else k in
  if (2 * k + 2 <? size pq) && (key_at c pq best1 <? key_at c pq (2 * k + 2))
  then 2 * k + 2 else best1.

(** [pq'] is [pq] with its occupied prefix rearranged. *)
Definition same_but_order (pq pq' : pq_handle_t) : Prop :=
  size pq' = size pq /\ mutex pq' = mutex pq /\
  eventSemaphore pq' = eventSemaphore pq /\ occupied pq' ≡ₚ occupied pq.

(** A semaphore after a successful take. *)
Definition taken (s : SemaphoreHandle_t) : SemaphoreHandle_t :=
  {| uxCount := uxCount s - 1; uxMaxCount := uxMaxCount s |}.

(** [part_001]: no more signals than stored events. *)
Definition signalled_within (pq : pq_handle_t) : Prop :=
  uxCount (eventSemaphore pq) <= size pq.

(** The calls of a task that sends, or receives, a list of events. *)
Definition send_call (p : pq_event_t * TickType_t) : call := CallSend p.1 p.2.
Definition receive_call (p : pq_event_t * TickType_t) : call := CallReceive p.1 p.2.

(** The queue with its array cut down to the occupied prefix. *)
Definition cut_to_size (pq : pq_handle_t) : pq_handle_t :=
  with_events pq (occupied pq).

Definition array_length (pq : pq_handle_t) : Z := Z.of_nat (length (events pq)).

(** ** Sample inputs *)

Definition blank : nat -> pq_event_t := fun _ => low.

Definition all_succeed (block : nat -> pq_event_t) : world :=
  {| pvPortMalloc_ok := true; xSemaphoreCreateMutex_ok := true;
     xSemaphoreCreateCounting_ok := true; fresh_block := block |}.

Definition counting_fails (block : nat -> pq_event_t) : world :=
  {| pvPortMalloc_ok := true; xSemaphoreCreateMutex_ok := true;
     xSemaphoreCreateCounting_ok := false; fresh_block := block |}.

(** The state a sequence of calls leads to from a new queue. *)
Definition after (c : copy) (ks : list call) : pq_handle_t :=
  match run c 10 (new_queue c blank) ks with
  | Returns (_, pq) => pq
  | _ => new_queue c blank
  end.

Definition full_queue (c : copy) : pq_handle_t :=
  after c (replicate 10 (CallSend low 0)).

Definition busy_queue (c : copy) : pq_handle_t :=
  after c [OtherTaskTakesMutex].

(** A queue of three events, the largest at index 1. *)
Definition three_events : pq_handle_t :=
  with_size (new_queue part_001 (fun n => if (n =? 1)%nat then high else low)) 3.

(** The claim C6, that the two failures of a send return different values. *)
Definition send_failures_distinguishable (c : copy) : Prop :=
  forall (fuel : nat) (full busy : pq_handle_t) (event : pq_event_t) (t : TickType_t)
         (r1 r2 : BaseType_t) (pq1 pq2 : pq_handle_t),
    reachable c full -> reachable c busy ->
    size full = PQ_MAX_EVENT_SIZE -> 0 < uxCount (mutex full) ->
    size busy < PQ_MAX_EVENT_SIZE -> uxCount (mutex busy) = 0 ->
    xPriorityQueueSend c fuel full event t = Returns (r1, pq1) ->
    xPriorityQueueSend c fuel busy event t = Returns (r2, pq2) ->
    r1 <> r2.

(** ** More vocabulary *)

(** The order [app_src] keeps: no child is below its parent. *)
Definition min_heap (pq : pq_handle_t) : Prop :=
  forall i child : Z,
    0 <= i -> child = 2 * i + 1 \/ child = 2 * i + 2 -> child < size pq ->
    priority_at pq i <= priority_at pq child.

Definition root_is_min (pq : pq_handle_t) : Prop :=
  forall j : Z, 0 <= j < size pq -> priority_at pq 0 <= priority_at pq j.

(** A call of the task itself, and not a move of another task at the
    mutex. *)
Definition own_call (k : call) : bool :=
  match k with
  | CallSend _ _ | CallReceive _ _ => true
  | _ => false
  end.

(** A call that does not wait without end. *)
Definition bounded_wait (k : call) : bool :=
  match k with
  | CallSend _ t | CallReceive _ t => negb (t =? portMAX_DELAY)
  | _ => true
  end.

(** ** More sample inputs *)

(** A Low and then a High event sent to a new queue. *)
Definition two_events (c : copy) : pq_handle_t :=
  after c [CallSend low 0; CallSend high 0].

(** One event sent, and the mutex held by another task. *)
Definition one_event_busy : pq_handle_t :=
  after part_001 [CallSend low 0; OtherTaskTakesMutex].

(** The block is allocated and the mutex is not. *)
Definition mutex_fails (block : nat -> pq_event_t) : world :=
  {| pvPortMalloc_ok := true; xSemaphoreCreateMutex_ok := false;
     xSemaphoreCreateCounting_ok := true; fresh_block := block |}.

(** A sequence with a receive and a send that the held mutex makes fail. *)
Definition contended : list call :=
  [CallSend low 0; OtherTaskTakesMutex; CallReceive high 0; CallSend high 0].

Definition three_own_calls : list call :=
  [CallSend low 0; CallSend high 5; CallReceive low 0].

(** ** The active objects: ao_ui.c and ao_led.c

    [ao_ui.c] receives the messages of the buttons in a FreeRTOS queue and
    forwards each as an event to the priority queue of [ao_led.c], whose
    task lights the LED an event selects.  The task functions never
    return; a task is observed for [n] turns of its loop.  What a task does
    to the world is a list of effects: the lines it logs, the pins it
    writes and the delays it takes.  A pin is named by the index into
    [info] that selects its port, pin and colour, and the tick period
    [portTICK_PERIOD_MS] of the FreeRTOS configuration is an argument.
    Both functions are named [ao_task_] in their files: here they are
    [ao_ui_ao_task_] and [ao_led_ao_task_]. *)

Inductive GPIO_PinState : Type := GPIO_PIN_RESET | GPIO_PIN_SET.

Inductive effect : Type :=
| LOGGER_INFO (line : string)
| LOGGER_LOG (line : string)
| LOGGER_INFO_colour (format : string) (index : Z)
| HAL_GPIO_WritePin (index : Z) (PinState : GPIO_PinState)
| vTaskDelay (xTicksToDelay : TickType_t).

(** The character that [\t] stands for in a C string. *)
Definition TAB : string := String "009"%char EmptyString.

(** *** The mailbox of ao_ui, a FreeRTOS queue

    The enumeration [ao_ui_message_t] is declared in [ao_ui.h]; [ao_ui.c]
    names three of its enumerators as the cases of one switch, and every
    other value takes the default case. *)

Inductive ao_ui_message_t : Type :=
| AO_UI_MESSAGE_PULSE
| AO_UI_MESSAGE_SHORT
| AO_UI_MESSAGE_LONG
| AO_UI_MESSAGE_unlisted (value : Z).

Record QueueHandle_t : Type := { uxLength : Z; waiting : list ao_ui_message_t }.

Definition errQUEUE_FULL : BaseType_t := 0.

Definition xQueueCreate (uxQueueLength : Z) : QueueHandle_t :=
  {| uxLength := uxQueueLength; waiting := [] |}.

Definition xQueueSend (q : QueueHandle_t) (item : ao_ui_message_t)
  (xTicksToWait : TickType_t) : outcome (BaseType_t * QueueHandle_t) :=
  if Z.of_nat (length (waiting q)) <? uxLength q then
    Returns (pdPASS, {| uxLength := uxLength q; waiting := waiting q ++ [item] |})
  else if xTicksToWait =? portMAX_DELAY then BlocksForever
  else Returns (errQUEUE_FULL, q).

Definition xQueueReceive (q : QueueHandle_t) (buffer : ao_ui_message_t)
  (xTicksToWait : TickType_t)
  : outcome (BaseType_t * ao_ui_message_t * QueueHandle_t) :=
  match waiting q with
  | item :: rest => Returns (pdPASS, item, {| uxLength := uxLength q; waiting := rest |})
  | [] => if xTicksToWait =? portMAX_DELAY then BlocksForever
          else Returns (pdFAIL, buffer, q)
  end.

(** *** ao_led.c *)

Definition LED_ON_PERIOD_TICKS_ (portTICK_PERIOD_MS : Z) : TickType_t :=
  5000 / portTICK_PERIOD_MS.

(** [ao_led_send]: the queue is [hao_led->hpq]. *)
Definition ao_led_send (c : copy) (fuel : nat) (hpq : pq_handle_t) (evt : pq_event_t)
  : outcome (bool * pq_handle_t) :=
  '(r, hpq) ← xPriorityQueueSend c fuel hpq evt 0;
  Returns (pdPASS =? r, hpq).

(** [ao_task_] passes to the receive the address of its local [evt],
    which has no initializer.  [dequeue_into] and
    [xPriorityQueueReceive_into] are [dequeue] and [xPriorityQueueReceive]
    for a buffer of any type [B]: [write] is the assignment
    [*event = pq->events[0]], the one place where the receive writes the
    buffer.  On a buffer that holds an event they are [dequeue] and
    [xPriorityQueueReceive]. *)
Definition dequeue_into {B : Type} (c : copy) (fuel : nat) (pq : pq_handle_t)
  (event : B) (write : pq_event_t -> B) : outcome (B * pq_handle_t) :=
  if 0 <? size pq then
    first ← load pq 0;
    last ← load pq (size pq - 1);
    pq ← store pq 0 last;
    let pq := with_size pq (size pq - 1) in
    pq ← _heapifyDown c fuel pq 0;
    Returns (write first, pq)
  else Returns (event, pq).

Definition xPriorityQueueReceive_into {B : Type} (c : copy) (fuel : nat)
  (pq : pq_handle_t) (event : B) (write : pq_event_t -> B) (ticksToWait : TickType_t)
  : outcome (BaseType_t * B * pq_handle_t) :=
  '(signalled, s) ← xSemaphoreTake (eventSemaphore pq) ticksToWait;
  if signalled =? pdTRUE then
    let pq := with_eventSemaphore pq s in
    match c with
    | app_src =>
        '(_, m) ← xSemaphoreTake (mutex pq) portMAX_DELAY;
        let pq := with_mutex pq m in
        '(event, pq) ← dequeue_into c fuel pq event write;
        let pq := with_mutex pq (snd (xSemaphoreGive (mutex pq))) in
        Returns (pdPASS, event, pq)
    | part_001 =>
        '(taken, m) ← xSemaphoreTake (mutex pq) 10;
        if taken =? pdTRUE then
          let pq := with_mutex pq m in
          '(event, pq) ← dequeue_into c fuel pq event write;
          let pq := with_mutex pq (snd (xSemaphoreGive (mutex pq))) in
          Returns (pdPASS, event, pq)
        else Returns (pdFAIL, event, pq)
    end
  else Returns (pdFAIL, event, pq).

(** What the local [pq_event_t evt] of [ao_task_] holds.  Until a receive
    writes it, its field [priority] is an indeterminate [int]. *)
Inductive evt_t : Type :=
| indeterminate (priority_value : Z)
| received (event : pq_event_t).

(** [evt.priority] *)
Definition evt_priority (evt : evt_t) : Z :=
  match evt with
  | indeterminate priority_value => priority_value
  | received event => enum_value (priority event)
  end.

(** The array [info] of the handle is declared in ao_led.h, and its length
    is a parameter here.  It has the three elements that the initializer
    of [ao_led] designates (RED, GREEN and BLUE), and [spare] is the number
    of elements the declaration gives it beyond these.  [info_at] is the
    checked access [hao->info[index]]: an index outside the array is the
    outcome [OutOfBounds], and an element is named by its index. *)
Definition info_length (spare : nat) : Z := 3 + Z.of_nat spare.

Definition info_at (spare : nat) (index : Z) : outcome Z :=
  if (0 <=? index) && (index <? info_length spare) then Returns index
  else OutOfBounds.

(** The body of the inner loop of [ao_task_], for the element of [info] at
    [index]. *)
Definition led_on_and_off_at (portTICK_PERIOD_MS : Z) (index : Z) : list effect :=
  [LOGGER_INFO ("AO LED " ++ TAB ++ "- Receive AO_LED_MESSAGE_ON message");
   HAL_GPIO_WritePin index GPIO_PIN_SET;
   LOGGER_INFO_colour ("AO LED " ++ TAB ++ "- LED %s ON") index;
   vTaskDelay (LED_ON_PERIOD_TICKS_ portTICK_PERIOD_MS);
   HAL_GPIO_WritePin index GPIO_PIN_RESET;
   LOGGER_INFO_colour ("AO LED " ++ TAB ++ "- LED %s OFF") index]%string.

(** The same for the element that the priority of an event selects. *)
Definition led_on_and_off (portTICK_PERIOD_MS : Z) (evt : pq_event_t) : list effect :=
  led_on_and_off_at portTICK_PERIOD_MS (enum_value (priority evt)).

Definition led_waiting : effect :=
  LOGGER_INFO ("AO LED " ++ TAB ++ "- Waiting event")%string.

(** The loops of [ao_task_], observed for [n] calls of the receive.  [evt]
    is the local of the outer loop.  Each turn of the outer loop declares
    it anew, with no initializer: [junk k] is the indeterminate value its
    field [priority] has when it is declared with [k] calls still to
    observe. *)
Fixpoint ao_led_loop (c : copy) (fuel : nat) (portTICK_PERIOD_MS : Z) (spare : nat)
  (junk : nat -> Z) (n : nat) (evt : evt_t) (hpq : pq_handle_t)
  : outcome (list effect * evt_t * pq_handle_t) :=
  match n with
  | O => Returns ([], evt, hpq)
  | S n =>
      '(r, evt, hpq) ←
        xPriorityQueueReceive_into c fuel hpq evt received portMAX_DELAY;
      if pdPASS =? r then
        index ← info_at spare (evt_priority evt);
        '(effects, evt', hpq) ←
          ao_led_loop c fuel portTICK_PERIOD_MS spare junk n evt hpq;
        Returns (led_on_and_off_at portTICK_PERIOD_MS index ++ effects, evt', hpq)
      else
        (* the inner loop ends, the outer loop starts over *)
        let evt := indeterminate (junk n) in
        '(effects, evt', hpq) ←
          ao_led_loop c fuel portTICK_PERIOD_MS spare junk n evt hpq;
        Returns (led_waiting :: effects, evt', hpq)
  end.

Definition led_started : effect :=
  LOGGER_INFO ("AO LED " ++ TAB ++ "- Task created")%string.

Definition ao_led_ao_task_ (c : copy) (fuel : nat) (portTICK_PERIOD_MS : Z)
  (spare : nat) (junk : nat -> Z) (n : nat) (hpq : pq_handle_t)
  : outcome (list effect * evt_t * pq_handle_t) :=
  '(effects, evt, hpq) ←
    ao_led_loop c fuel portTICK_PERIOD_MS spare junk n (indeterminate (junk n)) hpq;
  Returns (led_started :: led_waiting :: effects, evt, hpq).

(** *** ao_ui.c *)

Definition QUEUE_AO_UI_LENGTH_ : Z := 5.

(** [ao_ui_send]: the mailbox is [hao_ui->hqueue]. *)
Definition ao_ui_send (hqueue : QueueHandle_t) (msg : ao_ui_message_t)
  : outcome (bool * QueueHandle_t) :=
  '(r, hqueue) ← xQueueSend hqueue msg 0;
  Returns (pdPASS =? r, hqueue).

Definition ui_waiting : effect :=
  LOGGER_INFO ("AO UI" ++ TAB ++ "- Waiting event")%string.

(** The switch of [ao_task_]; [hpq] is the queue of the global [ao_led]. *)
Definition ao_ui_switch (c : copy) (fuel : nat) (rcvEvt : ao_ui_message_t)
  (hpq : pq_handle_t) : outcome (list effect * pq_handle_t) :=
  match rcvEvt with
  | AO_UI_MESSAGE_PULSE =>
      let sendEvt := {| priority := HIGH_PRIORITY |} in
      '(_, hpq) ← ao_led_send c fuel hpq sendEvt;
      Returns ([LOGGER_INFO ("AO UI" ++ TAB ++
                  "- Send a HIGH_PRIORITY event to the priority queue")%string], hpq)
  | AO_UI_MESSAGE_SHORT =>
      let sendEvt := {| priority := MEDIUM_PRIORITY |} in
      '(_, hpq) ← ao_led_send c fuel hpq sendEvt;
      Returns ([LOGGER_INFO ("AO UI" ++ TAB ++
                  "- Send a MEDIUM_PRIORITY event to the priority queue")%string], hpq)
  | AO_UI_MESSAGE_LONG =>
      let sendEvt := {| priority := LOW_PRIORITY |} in
      '(_, hpq) ← ao_led_send c fuel hpq sendEvt;
      Returns ([LOGGER_INFO ("AO UI" ++ TAB ++
                  "- Send a LOW_PRIORITY event to the priority queue")%string], hpq)
  | AO_UI_MESSAGE_unlisted _ =>
      Returns ([LOGGER_LOG ("AO UI" ++ TAB ++ "- ERROR - Bad message")%string], hpq)
  end.

(** The loop of [ao_task_], observed for [n] turns. *)
Fixpoint ao_ui_loop (c : copy) (fuel : nat) (n : nat) (rcvEvt : ao_ui_message_t)
  (hqueue : QueueHandle_t) (hpq : pq_handle_t)
  : outcome (list effect * QueueHandle_t * pq_handle_t) :=
  match n with
  | O => Returns ([], hqueue, hpq)
  | S n =>
      '(r, rcvEvt, hqueue) ← xQueueReceive hqueue rcvEvt portMAX_DELAY;
      '(sent, hpq) ← (if pdPASS =? r then ao_ui_switch c fuel rcvEvt hpq
                      else Returns ([], hpq));
      '(effects, hqueue, hpq) ← ao_ui_loop c fuel n rcvEvt hqueue hpq;
      Returns (ui_waiting :: sent ++ effects, hqueue, hpq)
  end.

Definition ui_started : effect :=
  LOGGER_INFO ("AO UI " ++ TAB ++ "- Started")%string.

Definition ao_ui_ao_task_ (c : copy) (fuel : nat) (n : nat) (rcvEvt : ao_ui_message_t)
  (hqueue : QueueHandle_t) (hpq : pq_handle_t)
  : outcome (list effect * QueueHandle_t * pq_handle_t) :=
  '(effects, hqueue, hpq) ← ao_ui_loop c fuel n rcvEvt hqueue hpq;
  Returns (ui_started :: effects, hqueue, hpq).

(** The event a listed enumerator is forwarded as. *)
Definition event_of_message (m : ao_ui_message_t) : option pq_event_t :=
  match m with
  | AO_UI_MESSAGE_PULSE => Some high
  | AO_UI_MESSAGE_SHORT => Some medium
  | AO_UI_MESSAGE_LONG => Some low
  | AO_UI_MESSAGE_unlisted _ => None
  end.

(** The pins follow the discipline when a pin is set only while none is on
    and the pin that is reset is the one that is on; the result is the pin
    left on. *)
Fixpoint led_discipline (on : option Z) (effects : list effect) : option (option Z) :=
  match effects with
  | [] => Some on
  | HAL_GPIO_WritePin i GPIO_PIN_SET :: rest =>
      match on with
      | None => led_discipline (Some i) rest
      | Some _ => None
      end
  | HAL_GPIO_WritePin i GPIO_PIN_RESET :: rest =>
      match on with
      | Some j => if i =? j then led_discipline None rest else None
      | None => None
      end
  | _ :: rest => led_discipline on rest
  end.

(** Posting a list of messages with [ao_ui_send]. *)
Fixpoint post_all (hqueue : QueueHandle_t) (msgs : list ao_ui_message_t)
  : outcome (list bool * QueueHandle_t) :=
  match msgs with
  | [] => Returns ([], hqueue)
  | msg :: msgs =>
      '(b, hqueue) ← ao_ui_send hqueue msg;
      '(bs, hqueue) ← post_all hqueue msgs;
      Returns (b :: bs, hqueue)
  end.

(** A local that holds no index of [info] when it is declared. *)
Definition sample_junk : nat -> Z := fun _ => 7.

(** A mailbox with a message that is not listed. *)
Definition sample_mailbox : list ao_ui_message_t :=
  [AO_UI_MESSAGE_LONG; AO_UI_MESSAGE_unlisted 7; AO_UI_MESSAGE_PULSE].

(** * Proofs *)

(** ** The array *)

Lemma load_cell (pq : pq_handle_t) (i : Z) :
  well_sized pq -> 0 <= i < PQ_MAX_EVENT_SIZE -> load pq i = Returns (cell pq i).
Proof.
  intros Hw Hi. unfold load, cell.
  destruct (Z.ltb_spec i 0) as [|_]; [lia|].
  destruct (lookup_lt_is_Some_2 (events pq) (Z.to_nat i)) as [e He].
  { rewrite Hw. unfold PQ_MAX_EVENT_SIZE in *. lia. }
  rewrite He. f_equal. symmetry. by apply list_lookup_total_correct.
Qed.

Lemma store_insert (pq : pq_handle_t) (i : Z) (e : pq_event_t) :
  well_sized pq -> 0 <= i < PQ_MAX_EVENT_SIZE ->
  store pq i e = Returns (with_events pq (<[Z.to_nat i := e]> (events pq))).
Proof.
  intros Hw Hi. unfold store.
  destruct (Z.ltb_spec i 0) as [|_]; [lia|].
  destruct (lookup_lt_is_Some_2 (events pq) (Z.to_nat i)) as [e' He].
  { rewrite Hw. unfold PQ_MAX_EVENT_SIZE in *. lia. }
  by rewrite He.
Qed.

Lemma well_sized_insert (pq : pq_handle_t) (n : nat) (e : pq_event_t) :
  well_sized pq -> well_sized (with_events pq (<[n := e]> (events pq))).
Proof. unfold well_sized. simpl. by rewrite length_insert. Qed.

Lemma swap_exchanged (pq : pq_handle_t) (a b : Z) :
  well_sized pq -> 0 <= a < PQ_MAX_EVENT_SIZE -> 0 <= b < PQ_MAX_EVENT_SIZE ->
  _swap pq a b = Returns (exchanged pq a b).
Proof.
  intros Hw Ha Hb. unfold _swap.
  rewrite (load_cell pq a), (load_cell pq b) by done. simpl.
  rewrite (store_insert pq a) by done. simpl.
  rewrite store_insert; [done| |done].
  by apply well_sized_insert.
Qed.

Lemma well_sized_exchanged (pq : pq_handle_t) (a b : Z) :
  well_sized pq -> well_sized (exchanged pq a b).
Proof. unfold well_sized, exchanged. simpl. by rewrite !length_insert. Qed.

Lemma cell_exchanged (pq : pq_handle_t) (a b k : Z) :
  well_sized pq -> 0 <= a < PQ_MAX_EVENT_SIZE -> 0 <= b < PQ_MAX_EVENT_SIZE ->
  0 <= k ->
  cell (exchanged pq a b) k =
    if decide (k = b) then cell pq a
    else if decide (k = a) then cell pq b
    else cell pq k.
Proof.
  intros Hw Ha Hb Hk. unfold cell, exchanged. simpl.
  assert (Hlen : length (events pq) = 10%nat) by exact Hw.
  unfold PQ_MAX_EVENT_SIZE in *.
  repeat case_decide; subst.
  - rewrite list_lookup_total_insert_eq; [done|]. rewrite length_insert. lia.
  - rewrite list_lookup_total_insert_ne by lia.
    rewrite list_lookup_total_insert_eq; [done|lia].
  - rewrite !list_lookup_total_insert_ne by lia. done.
Qed.

Lemma key_at_exchanged (c : copy) (pq : pq_handle_t) (a b k : Z) :
  well_sized pq -> 0 <= a < PQ_MAX_EVENT_SIZE -> 0 <= b < PQ_MAX_EVENT_SIZE ->
  0 <= k ->
  key_at c (exchanged pq a b) k =
    if decide (k = b) then key_at c pq a
    else if decide (k = a) then key_at c pq b
    else key_at c pq k.
Proof.
  intros. unfold key_at. rewrite cell_exchanged by done.
  by repeat case_decide.
Qed.

Lemma moves_up_key (c : copy) (x y : pq_event_t) :
  moves_up c (priority x) (priority y) = (key c y <? key c x).
Proof.
  destruct c; simpl.
  - destruct (Z.ltb_spec (enum_value (priority x)) (enum_value (priority y))),
      (Z.ltb_spec (- enum_value (priority y)) (- enum_value (priority x))); lia.
  - apply Z.gtb_ltb.
Qed.

Lemma moves_up_irrefl (c : copy) (x : pq_priority_t) : moves_up c x x = false.
Proof. destruct c; simpl; [apply Z.ltb_irrefl|]. rewrite Z.gtb_ltb. apply Z.ltb_irrefl. Qed.

Section Repairs.

Context (c : copy).

(** ** One call of each heap repair *)

Lemma heapifyUp_step (fuel : nat) (pq : pq_handle_t) (k : Z) :
  well_sized pq -> 0 <= k < PQ_MAX_EVENT_SIZE ->
  _heapifyUp c (S fuel) pq k =
    if key_at c pq (Z.quot (k - 1) 2) <? key_at c pq k
    then _heapifyUp c fuel (exchanged pq k (Z.quot (k - 1) 2)) (Z.quot (k - 1) 2)
    else Returns pq.
Proof.
  intros Hw Hk. simpl.
  assert (Hp : 0 <= Z.quot (k - 1) 2 < PQ_MAX_EVENT_SIZE) by lia.
  destruct (Z.geb_spec (Z.quot (k - 1) 2) 0) as [_|]; [|lia].
  rewrite (load_cell pq k), (load_cell pq (Z.quot (k - 1) 2)) by done. simpl.
  rewrite moves_up_key. fold (key_at c pq k) (key_at c pq (Z.quot (k - 1) 2)).
  destruct (key_at c pq (Z.quot (k - 1) 2) <? key_at c pq k); [|done].
  by rewrite swap_exchanged.
Qed.

Lemma pick_returns (pq : pq_handle_t) (child best : Z) :
  well_sized pq -> in_capacity pq -> 0 <= child ->
  (child < size pq -> 0 <= best < PQ_MAX_EVENT_SIZE) ->
  pick c pq child best =
    Returns (if (child <? size pq) && (key_at c pq best <? key_at c pq child)
             then child else best).
Proof.
  intros Hw Hc Hch Hb. unfold pick.
  destruct (Z.ltb_spec child (size pq)) as [Hlt|]; [|done].
  unfold in_capacity in Hc.
  rewrite (load_cell pq child), (load_cell pq best) by (auto; lia). simpl.
  by rewrite moves_up_key.
Qed.

Lemma heapifyDown_step (fuel : nat) (pq : pq_handle_t) (k : Z) :
  well_sized pq -> in_capacity pq -> 0 <= k ->
  _heapifyDown c (S fuel) pq k =
    if best_of c pq k =? k then Returns pq
    else _heapifyDown c fuel (exchanged pq k (best_of c pq k)) (best_of c pq k).
Proof.
  intros Hw Hc Hk. simpl. pose proof Hc as Hc'. unfold in_capacity in Hc'.
  rewrite pick_returns by (auto; lia). simpl.
  rewrite pick_returns; [|done|done|lia|].
  2:{ intros. case_match; lia. }
  simpl. fold (best_of c pq k).
  assert (Hbest : best_of c pq k = k \/
                  (best_of c pq k < size pq /\ k < best_of c pq k)).
  { unfold best_of.
    destruct (Z.ltb_spec (2 * k + 1) (size pq)), (Z.ltb_spec (2 * k + 2) (size pq));
      simpl; repeat case_match; lia. }
  destruct (Z.eqb_spec (best_of c pq k) k) as [|Hne]; [done|]. simpl.
  rewrite swap_exchanged; [done|done|lia|lia].
Qed.

(** ** Exchanging two elements permutes the occupied prefix *)

Lemma insert_head_Permutation (l : list pq_event_t) (i : nat) (x : pq_event_t) :
  (i < length l)%nat -> (l !!! i) :: <[i := x]> l ≡ₚ x :: l.
Proof.
  revert i. induction l as [|y l IH]; intros i Hi; simpl in Hi; [lia|].
  destruct i as [|i]; simpl.
  - apply Permutation_swap.
  - change ((y :: l) !!! S i) with (l !!! i).
    etrans; [apply Permutation_swap|].
    etrans; [apply perm_skip, IH; lia|].
    apply Permutation_swap.
Qed.

Lemma exchange_Permutation (l : list pq_event_t) (a b : nat) :
  (a < length l)%nat -> (b < length l)%nat ->
  <[b := l !!! a]> (<[a := l !!! b]> l) ≡ₚ l.
Proof.
  revert a b. induction l as [|y l IH]; intros a b Ha Hb; simpl in Ha, Hb; [lia|].
  destruct a as [|a], b as [|b]; simpl.
  - done.
  - change ((y :: l) !!! S b) with (l !!! b). apply insert_head_Permutation. lia.
  - change ((y :: l) !!! S a) with (l !!! a). apply insert_head_Permutation. lia.
  - change ((y :: l) !!! S a) with (l !!! a).
    change ((y :: l) !!! S b) with (l !!! b).
    f_equiv. apply IH; lia.
Qed.

Lemma occupied_exchanged (pq : pq_handle_t) (a b : Z) :
  well_sized pq -> in_capacity pq -> 0 <= a < size pq -> 0 <= b < size pq ->
  occupied (exchanged pq a b) ≡ₚ occupied pq.
Proof.
  intros Hw Hc Ha Hb. unfold occupied, exchanged, cell. simpl.
  assert (Hlen : length (events pq) = 10%nat) by exact Hw.
  unfold in_capacity, PQ_MAX_EVENT_SIZE in Hc.
  rewrite !take_insert_lt by lia.
  rewrite <- (lookup_total_take_lt (events pq) (Z.to_nat (size pq)) (Z.to_nat a)) by lia.
  rewrite <- (lookup_total_take_lt (events pq) (Z.to_nat (size pq)) (Z.to_nat b)) by lia.
  apply exchange_Permutation; rewrite length_take; lia.
Qed.

(** ** Termination of the heap repairs *)

Lemma heapifyUp_returns (fuel : nat) :
  forall (pq : pq_handle_t) (k : Z),
    well_sized pq -> 0 <= k < PQ_MAX_EVENT_SIZE -> (Z.to_nat k < fuel)%nat ->
    exists pq', _heapifyUp c fuel pq k = Returns pq'.
Proof.
  induction fuel as [|fuel IH]; intros pq k Hw Hk Hfuel; [lia|].
  rewrite heapifyUp_step by done.
  destruct (Z.ltb_spec (key_at c pq (Z.quot (k - 1) 2)) (key_at c pq k)) as [Hlt|];
    [|by eexists].
  assert (k <> 0).
  { intros ->. change (Z.quot (0 - 1) 2) with 0 in Hlt. lia. }
  apply IH; [by apply well_sized_exchanged|lia|lia].
Qed.

Lemma heapifyDown_returns (fuel : nat) :
  forall (pq : pq_handle_t) (k : Z),
    well_sized pq -> in_capacity pq -> 0 <= k ->
    (Z.to_nat (size pq - k) < fuel)%nat ->
    exists pq', _heapifyDown c fuel pq k = Returns pq'.
Proof.
  induction fuel as [|fuel IH]; intros pq k Hw Hc Hk Hfuel; [lia|].
  rewrite heapifyDown_step by done.
  destruct (Z.eqb_spec (best_of c pq k) k) as [|Hne]; [by eexists|].
  assert (Hbest : best_of c pq k < size pq /\ k < best_of c pq k).
  { revert Hne. unfold best_of.
    destruct (Z.ltb_spec (2 * k + 1) (size pq)), (Z.ltb_spec (2 * k + 2) (size pq));
      simpl; repeat case_match; lia. }
  apply IH; [by apply well_sized_exchanged|done|lia|simpl; lia].
Qed.

(** More fuel does not change what a repair returns. *)

Lemma heapifyUp_more_fuel (fuel : nat) :
  forall (fuel' : nat) (pq : pq_handle_t) (k : Z) (pq' : pq_handle_t),
    _heapifyUp c fuel pq k = Returns pq' -> (fuel <= fuel')%nat ->
    _heapifyUp c fuel' pq k = Returns pq'.
Proof.
  induction fuel as [|fuel IH]; intros fuel' pq k pq' Hrun Hle; [done|].
  destruct fuel' as [|fuel']; [lia|]. simpl in *.
  destruct (Z.quot (k - 1) 2 >=? 0); [|done].
  destruct (load pq k) as [ek| | |]; try done.
  destruct (load pq (Z.quot (k - 1) 2)) as [ep| | |]; try done. simpl in *.
  destruct (moves_up c (priority ek) (priority ep)); [|done].
  destruct (_swap pq k (Z.quot (k - 1) 2)) as [pq1| | |]; try done. simpl in *.
  apply IH; [done|lia].
Qed.

Lemma heapifyDown_more_fuel (fuel : nat) :
  forall (fuel' : nat) (pq : pq_handle_t) (k : Z) (pq' : pq_handle_t),
    _heapifyDown c fuel pq k = Returns pq' -> (fuel <= fuel')%nat ->
    _heapifyDown c fuel' pq k = Returns pq'.
Proof.
  induction fuel as [|fuel IH]; intros fuel' pq k pq' Hrun Hle; [done|].
  destruct fuel' as [|fuel']; [lia|]. simpl in *.
  destruct (pick c pq (2 * k + 1) k) as [b1| | |]; try done. simpl in *.
  destruct (pick c pq (2 * k + 2) b1) as [b2| | |]; try done. simpl in *.
  destruct (negb (b2 =? k)); [|done].
  destruct (_swap pq k b2) as [pq1| | |]; try done. simpl in *.
  apply IH; [done|lia].
Qed.

(** ** The heap repairs restore the order *)

Lemma up_hole_exchanged (pq : pq_handle_t) (k : Z) :
  well_sized pq -> in_capacity pq -> 1 <= k < size pq -> up_hole c pq k ->
  key_at c pq (Z.quot (k - 1) 2) < key_at c pq k ->
  up_hole c (exchanged pq k (Z.quot (k - 1) 2)) (Z.quot (k - 1) 2).
Proof.
  intros Hw Hc Hk [Hup1 Hup2] Hlt.
  unfold in_capacity in Hc.
  assert (Hpk : 0 <= Z.quot (k - 1) 2 < k) by lia.
  split.
  - intros ch Hch Hne. simpl in Hch.
    rewrite !key_at_exchanged by (done || lia).
    repeat case_decide; subst; try lia.
    + pose proof (Hup1 ch Hch ltac:(done)) as X. rewrite H1 in X. lia.
    + apply Hup2; [done|done|lia].
    + by apply Hup1.
  - intros ch Hch Hpar Hp. simpl in Hch.
    assert (Hpp : 0 <= Z.quot (Z.quot (k - 1) 2 - 1) 2 < Z.quot (k - 1) 2) by lia.
    rewrite !key_at_exchanged by (done || lia).
    repeat case_decide; subst; try lia.
    + apply Hup1; lia.
    + pose proof (Hup1 ch Hch ltac:(done)) as X. rewrite Hpar in X.
      pose proof (Hup1 (Z.quot (k - 1) 2) ltac:(lia) ltac:(lia)). lia.
Qed.

Lemma heapifyUp_heap (fuel : nat) :
  forall (pq : pq_handle_t) (k : Z) (pq' : pq_handle_t),
    well_sized pq -> in_capacity pq -> 0 <= k < size pq -> up_hole c pq k ->
    _heapifyUp c fuel pq k = Returns pq' ->
    well_sized pq' /\ heap_order c pq' /\ same_but_order pq pq'.
Proof.
  induction fuel as [|fuel IH]; intros pq k pq' Hw Hc Hk Hup; [done|].
  pose proof Hc as Hc'. unfold in_capacity in Hc'.
  rewrite heapifyUp_step by (done || lia).
  destruct (Z.ltb_spec (key_at c pq (Z.quot (k - 1) 2)) (key_at c pq k)) as [Hlt|Hge].
  - assert (k <> 0).
    { intros ->. change (Z.quot (0 - 1) 2) with 0 in Hlt. lia. }
    intros Hrun. apply IH in Hrun as (Hw' & Hheap & Hsz & Hm & Hs & Hperm).
    + repeat split; try done.
      rewrite Hperm. apply occupied_exchanged; (done || lia).
    + by apply well_sized_exchanged.
    + done.
    + simpl. lia.
    + apply up_hole_exchanged; (done || lia).
  - intros [= <-]. split; [done|]. split; [|done].
    intros ch Hch. destruct (decide (ch = k)) as [->|Hne]; [done|].
    by apply Hup.
Qed.

Lemma best_of_cases (pq : pq_handle_t) (k : Z) :
  0 <= k ->
  (best_of c pq k = k /\
   (forall ch, ch < size pq -> Z.quot (ch - 1) 2 = k -> 1 <= ch ->
      key_at c pq ch <= key_at c pq k)) \/
  (k < best_of c pq k < size pq /\ Z.quot (best_of c pq k - 1) 2 = k /\
   key_at c pq k < key_at c pq (best_of c pq k) /\
   (forall ch, ch < size pq -> Z.quot (ch - 1) 2 = k -> 1 <= ch ->
      key_at c pq ch <= key_at c pq (best_of c pq k))).
Proof.
  intros Hk. unfold best_of.
  assert (Hch : forall ch, Z.quot (ch - 1) 2 = k -> 1 <= ch ->
                  ch = 2 * k + 1 \/ ch = 2 * k + 2) by (intros; lia).
  destruct (Z.ltb_spec (2 * k + 1) (size pq)) as [Hl|Hl];
    destruct (Z.ltb_spec (2 * k + 2) (size pq)) as [Hr|Hr]; cbv [andb].
  all: try (destruct (Z.ltb_spec (key_at c pq k) (key_at c pq (2 * k + 1)));
            cbv iota beta).
  all: repeat match goal with
       | |- context [?a <? ?b] => destruct (Z.ltb_spec a b); cbv iota beta
       end.
  all: cbv iota beta.
  all: first [ left; split; [reflexivity|];
               intros ch H1 H2 H3; destruct (Hch ch H2 H3) as [->| ->]; lia
             | right; split; [lia|]; split; [lia|]; split; [lia|];
               intros ch H1 H2 H3; destruct (Hch ch H2 H3) as [->| ->]; lia
             | idtac ].
Qed.

Lemma down_hole_exchanged (pq : pq_handle_t) (k m : Z) :
  well_sized pq -> in_capacity pq -> 0 <= k -> down_hole c pq k ->
  k < m < size pq -> Z.quot (m - 1) 2 = k ->
  key_at c pq k < key_at c pq m ->
  (forall ch, ch < size pq -> Z.quot (ch - 1) 2 = k -> 1 <= ch ->
     key_at c pq ch <= key_at c pq m) ->
  down_hole c (exchanged pq k m) m.
Proof.
  intros Hw Hc Hk [Hd1 Hd2] Hm Hpar Hlt Hbest.
  unfold in_capacity in Hc.
  split.
  - intros ch Hch Hne. simpl in Hch.
    rewrite !key_at_exchanged by (done || lia).
    repeat case_decide; try lia.
    + rewrite H0. apply Hd2; lia.
    + apply Hbest; lia.
    + by apply Hd1.
  - intros ch Hch Hpm Hm1. simpl in Hch.
    rewrite !key_at_exchanged by (done || lia).
    rewrite Hpar.
    repeat case_decide; try lia.
    pose proof (Hd1 ch Hch ltac:(lia)) as X. by rewrite Hpm in X.
Qed.

Lemma heapifyDown_heap (fuel : nat) :
  forall (pq : pq_handle_t) (k : Z) (pq' : pq_handle_t),
    well_sized pq -> in_capacity pq -> 0 <= k -> down_hole c pq k ->
    _heapifyDown c fuel pq k = Returns pq' ->
    well_sized pq' /\ heap_order c pq' /\ same_but_order pq pq'.
Proof.
  induction fuel as [|fuel IH]; intros pq k pq' Hw Hc Hk Hdown; [done|].
  pose proof Hc as Hc'. unfold in_capacity in Hc'.
  rewrite heapifyDown_step by done.
  destruct (best_of_cases pq k Hk) as [[Hb Hle]|(Hb & Hpar & Hlt & Hle)].
  - rewrite Hb, Z.eqb_refl. intros [= <-]. split; [done|]. split; [|done].
    intros ch Hch. destruct (decide (Z.quot (ch - 1) 2 = k)) as [E|Hne].
    + rewrite E. apply Hle; lia.
    + by apply Hdown.
  - destruct (Z.eqb_spec (best_of c pq k) k) as [|_]; [lia|].
    intros Hrun. apply IH in Hrun as (Hw' & Hheap & Hsz & Hmx & Hs & Hperm).
    + repeat split; try done.
      rewrite Hperm. apply occupied_exchanged; (done || lia).
    + by apply well_sized_exchanged.
    + done.
    + lia.
    + apply down_hole_exchanged; (done || lia).
Qed.

(** ** The critical sections *)

Lemma bind_returns {A B : Type} (m : outcome A) (k : A -> outcome B) (b : B) :
  m ≫= k = Returns b -> exists a, m = Returns a /\ k a = Returns b.
Proof. destruct m; simpl; try done. intros. by eexists. Qed.

Lemma cell_insert_ne (pq : pq_handle_t) (n : nat) (e : pq_event_t) (i : Z) :
  0 <= i -> Z.to_nat i <> n ->
  cell (with_events pq (<[n := e]> (events pq))) i = cell pq i.
Proof. intros. unfold cell. simpl. by rewrite list_lookup_total_insert_ne. Qed.

Lemma enqueue_spec (fuel : nat) (pq : pq_handle_t) (event : pq_event_t)
  (pq' : pq_handle_t) :
  well_sized pq -> 0 <= size pq < PQ_MAX_EVENT_SIZE -> heap_order c pq ->
  enqueue c fuel pq event = Returns pq' ->
  well_sized pq' /\ heap_order c pq' /\ size pq' = size pq + 1 /\
  mutex pq' = mutex pq /\ eventSemaphore pq' = eventSemaphore pq /\
  occupied pq' ≡ₚ event :: occupied pq.
Proof.
  intros Hw Hsz Hheap. unfold enqueue.
  rewrite store_insert by done. simpl.
  replace (size pq + 1 - 1) with (size pq) by lia.
  set (pq1 := with_size _ _).
  assert (Hw1 : well_sized pq1) by (unfold well_sized; simpl; by rewrite length_insert).
  intros Hrun. apply heapifyUp_heap in Hrun as (Hw' & Hheap' & Hs & Hm & He & Hperm).
  - repeat split; try done. rewrite Hperm. unfold occupied, pq1. simpl.
    assert (Hlen : length (events pq) = 10%nat) by exact Hw.
    unfold PQ_MAX_EVENT_SIZE in Hsz.
    replace (Z.to_nat (size pq + 1)) with (S (Z.to_nat (size pq))) by lia.
    rewrite (take_S_r _ _ event) by (apply list_lookup_insert_eq; lia).
    rewrite take_insert_ge by lia. by rewrite Permutation_app_comm.
  - done.
  - unfold in_capacity, pq1. simpl. lia.
  - simpl. lia.
  - split.
    + intros ch Hch Hne. simpl in Hch. unfold key_at, pq1.
      change (cell (with_size ?q _) ?i) with (cell q i).
      rewrite !cell_insert_ne by lia. apply Hheap. lia.
    + intros ch Hch Hpar. simpl in Hch. lia.
Qed.

Lemma enqueue_returns (fuel : nat) (pq : pq_handle_t) (event : pq_event_t) :
  well_sized pq -> 0 <= size pq < PQ_MAX_EVENT_SIZE ->
  (Z.to_nat (size pq) < fuel)%nat ->
  exists pq', enqueue c fuel pq event = Returns pq'.
Proof.
  intros Hw Hsz Hfuel. unfold enqueue.
  rewrite store_insert by done. simpl.
  replace (size pq + 1 - 1) with (size pq) by lia.
  apply heapifyUp_returns; [|done|done].
  unfold well_sized; simpl; by rewrite length_insert.
Qed.

Lemma dequeue_spec (fuel : nat) (pq : pq_handle_t) (buffer e : pq_event_t)
  (pq' : pq_handle_t) :
  well_sized pq -> in_capacity pq -> heap_order c pq ->
  dequeue c fuel pq buffer = Returns (e, pq') ->
  (size pq = 0 /\ e = buffer /\ pq' = pq) \/
  (0 < size pq /\ e = cell pq 0 /\
   well_sized pq' /\ heap_order c pq' /\ size pq' = size pq - 1 /\
   mutex pq' = mutex pq /\ eventSemaphore pq' = eventSemaphore pq /\
   e :: occupied pq' ≡ₚ occupied pq).
Proof.
  intros Hw Hc Hheap. unfold dequeue. pose proof Hc as Hc'. unfold in_capacity in Hc'.
  destruct (Z.ltb_spec 0 (size pq)) as [Hpos|]; [|intros [= <- <-]; left; repeat split; (done || lia)].
  rewrite (load_cell pq 0), (load_cell pq (size pq - 1)) by (done || lia). simpl.
  rewrite store_insert by (done || lia). simpl.
  set (pq1 := with_size _ _).
  assert (Hw1 : well_sized pq1) by (unfold well_sized; simpl; by rewrite length_insert).
  intros Hrun. apply bind_returns in Hrun as (pq2 & Hrun & [= <- <-]).
  apply heapifyDown_heap in Hrun as (Hw' & Hheap' & Hs & Hm & He & Hperm).
  - right. repeat split; try done. rewrite Hperm. unfold occupied, pq1. simpl.
    assert (Hlen : length (events pq) = 10%nat) by exact Hw.
    unfold PQ_MAX_EVENT_SIZE in Hc'. unfold cell.
    destruct (decide (size pq = 1)) as [E|Hne].
    + rewrite E. simpl. destruct (events pq); [done|]. done.
    + replace (Z.to_nat (size pq)) with (S (Z.to_nat (size pq - 1))) by lia.
      rewrite (take_S_r _ _ (events pq !!! Z.to_nat (size pq - 1))).
      2:{ apply list_lookup_lookup_total_lt. lia. }
      rewrite take_insert_lt by lia.
      rewrite <- (lookup_total_take_lt (events pq) (Z.to_nat (size pq - 1)) (Z.to_nat 0))
        by lia.
      rewrite insert_head_Permutation by (rewrite length_take; lia).
      by rewrite Permutation_app_comm.
  - done.
  - unfold in_capacity, pq1. simpl. lia.
  - done.
  - split.
    + intros ch Hch Hne. simpl in Hch. unfold key_at, pq1.
      change (cell (with_size ?q _) ?i) with (cell q i).
      rewrite !cell_insert_ne by lia. apply Hheap. lia.
    + intros ch Hch Hpar ?. lia.
Qed.

Lemma dequeue_returns (fuel : nat) (pq : pq_handle_t) (buffer : pq_event_t) :
  well_sized pq -> in_capacity pq -> (Z.to_nat (size pq) <= fuel)%nat -> (0 < fuel)%nat ->
  exists e pq', dequeue c fuel pq buffer = Returns (e, pq').
Proof.
  intros Hw Hc Hfuel Hpos. unfold dequeue. pose proof Hc as Hc'. unfold in_capacity in Hc'.
  destruct (Z.ltb_spec 0 (size pq)) as [Hlt|]; [|by eauto].
  rewrite (load_cell pq 0), (load_cell pq (size pq - 1)) by (done || lia). simpl.
  rewrite store_insert by (done || lia). simpl.
  set (pq1 := with_size _ _).
  destruct (heapifyDown_returns fuel pq1 0) as [pq2 ->].
  - unfold well_sized; simpl; by rewrite length_insert.
  - unfold in_capacity, pq1. simpl. lia.
  - done.
  - simpl. lia.
  - simpl. eauto.
Qed.

End Repairs.

(** ** Send and receive *)

Lemma take_available (s : SemaphoreHandle_t) (t : TickType_t) :
  0 < uxCount s -> xSemaphoreTake s t = Returns (pdTRUE, taken s).
Proof. intros. unfold xSemaphoreTake. by destruct (Z.ltb_spec 0 (uxCount s)); [|lia]. Qed.

Lemma take_expires (s : SemaphoreHandle_t) (t : TickType_t) :
  uxCount s <= 0 -> t <> portMAX_DELAY -> xSemaphoreTake s t = Returns (pdFALSE, s).
Proof.
  intros. unfold xSemaphoreTake. destruct (Z.ltb_spec 0 (uxCount s)); [lia|].
  by destruct (Z.eqb_spec t portMAX_DELAY).
Qed.

Lemma take_blocks (s : SemaphoreHandle_t) :
  uxCount s <= 0 -> xSemaphoreTake s portMAX_DELAY = BlocksForever.
Proof. intros. unfold xSemaphoreTake. by destruct (Z.ltb_spec 0 (uxCount s)); [lia|]. Qed.

Lemma give_taken_mutex (m : SemaphoreHandle_t) :
  is_mutex m -> 0 < uxCount m -> snd (xSemaphoreGive (taken m)) = m.
Proof.
  destruct m as [n mx]. unfold is_mutex, xSemaphoreGive, taken. simpl.
  intros [-> ?] ?. assert (n = 1) as -> by lia. done.
Qed.

Lemma with_mutex_restore (pq : pq_handle_t) (m : SemaphoreHandle_t) :
  with_mutex (with_mutex pq m) (mutex pq) = pq.
Proof. by destruct pq. Qed.

Lemma give_event_semaphore (s : SemaphoreHandle_t) :
  is_event_semaphore s ->
  is_event_semaphore (snd (xSemaphoreGive s)) /\
  uxCount (snd (xSemaphoreGive s)) = Z.min (uxCount s + 1) PQ_MAX_EVENT_SIZE.
Proof.
  unfold is_event_semaphore, xSemaphoreGive. intros [Hmax Hc].
  destruct (Z.ltb_spec (uxCount s) (uxMaxCount s)); simpl; lia.
Qed.

Lemma send_spec (c : copy) (fuel : nat) (pq : pq_handle_t) (event : pq_event_t)
  (t : TickType_t) (r : BaseType_t) (pq' : pq_handle_t) :
  invariant c pq ->
  xPriorityQueueSend c fuel pq event t = Returns (r, pq') ->
  (r = pdFAIL /\ pq' = pq /\
   (uxCount (mutex pq) = 0 \/ size pq = PQ_MAX_EVENT_SIZE)) \/
  (r = pdPASS /\ invariant c pq' /\ uxCount (mutex pq) = 1 /\
   size pq < PQ_MAX_EVENT_SIZE /\ size pq' = size pq + 1 /\
   mutex pq' = mutex pq /\
   uxCount (eventSemaphore pq') =
     Z.min (uxCount (eventSemaphore pq) + 1) PQ_MAX_EVENT_SIZE /\
   occupied pq' ≡ₚ event :: occupied pq).
Proof.
  intros (Hw & Hc & Hheap & Hm & Hs). unfold xPriorityQueueSend.
  pose proof Hm as [Hmm Hmc]. pose proof Hc as Hc'. unfold in_capacity in Hc'.
  destruct (decide (0 < uxCount (mutex pq))) as [Hfree|Hbusy].
  - rewrite take_available by done. simpl.
    destruct (Z.leb_spec PQ_MAX_EVENT_SIZE (size pq)) as [Hfull|Hroom].
    + rewrite give_taken_mutex, with_mutex_restore by done.
      intros [= <- <-]. left. repeat split; (done || lia).
    + intros Hrun. apply bind_returns in Hrun as (pq1 & Hrun & [= <- <-]).
      apply enqueue_spec in Hrun as (Hw1 & Hheap1 & Hs1 & Hm1 & He1 & Hperm);
        [|done|simpl; lia|done].
      simpl in *. right.
      destruct (give_event_semaphore (eventSemaphore pq1)) as [Hs' Hcount];
        [by rewrite He1|].
      rewrite Hm1, give_taken_mutex by done.
      split_and!; try done; simpl; try lia.
      * split_and!; try done. unfold in_capacity. simpl. lia.
      * by rewrite Hcount, He1.
  - unfold xSemaphoreTake.
    destruct (Z.ltb_spec 0 (uxCount (mutex pq))); [lia|].
    destruct (t =? portMAX_DELAY); [done|]. simpl.
    intros [= <- <-]. left. repeat split; (done || lia).
Qed.

Lemma taken_event_semaphore (s : SemaphoreHandle_t) :
  is_event_semaphore s -> 0 < uxCount s -> is_event_semaphore (taken s).
Proof. unfold is_event_semaphore, taken. simpl. lia. Qed.

Lemma receive_spec (c : copy) (fuel : nat) (pq : pq_handle_t) (buffer : pq_event_t)
  (t : TickType_t) (r : BaseType_t) (e : pq_event_t) (pq' : pq_handle_t) :
  invariant c pq ->
  xPriorityQueueReceive c fuel pq buffer t = Returns (r, e, pq') ->
  (uxCount (eventSemaphore pq) = 0 /\ r = pdFAIL /\ e = buffer /\ pq' = pq) \/
  (0 < uxCount (eventSemaphore pq) /\ uxCount (mutex pq) = 0 /\ c = part_001 /\
   r = pdFAIL /\ e = buffer /\
   pq' = with_eventSemaphore pq (taken (eventSemaphore pq))) \/
  (0 < uxCount (eventSemaphore pq) /\ uxCount (mutex pq) = 1 /\ size pq = 0 /\
   r = pdPASS /\ e = buffer /\
   pq' = with_eventSemaphore pq (taken (eventSemaphore pq))) \/
  (0 < uxCount (eventSemaphore pq) /\ uxCount (mutex pq) = 1 /\ 0 < size pq /\
   r = pdPASS /\ e = cell pq 0 /\ invariant c pq' /\
   size pq' = size pq - 1 /\ mutex pq' = mutex pq /\
   eventSemaphore pq' = taken (eventSemaphore pq) /\
   e :: occupied pq' ≡ₚ occupied pq).
Proof.
  intros (Hw & Hc & Hheap & Hm & Hs). unfold xPriorityQueueReceive.
  pose proof Hm as [Hmm Hmc]. pose proof Hs as [Hsm Hsc].
  destruct (decide (0 < uxCount (eventSemaphore pq))) as [Hsig|Hnone].
  2:{ unfold xSemaphoreTake.
      destruct (Z.ltb_spec 0 (uxCount (eventSemaphore pq))); [lia|].
      destruct (t =? portMAX_DELAY); [done|]. simpl.
      intros [= <- <- <-]. left. split_and!; (done || lia). }
  rewrite take_available by done. simpl. intros Hrun. right. revert Hrun.
  set (pq0 := with_eventSemaphore pq (taken (eventSemaphore pq))).
  assert (Hcritical : forall res,
    ( '(event, pq1) ← dequeue c fuel (with_mutex pq0 (taken (mutex pq0))) buffer;
     Returns (pdPASS, event,
              with_mutex pq1 (snd (xSemaphoreGive (mutex pq1))))) = Returns res ->
    0 < uxCount (mutex pq) ->
    (size pq = 0 /\ res = (pdPASS, buffer, pq0)) \/
    (0 < size pq /\ res.1.1 = pdPASS /\ res.1.2 = cell pq 0 /\ invariant c res.2 /\
     size res.2 = size pq - 1 /\ mutex res.2 = mutex pq /\
     eventSemaphore res.2 = taken (eventSemaphore pq) /\
     res.1.2 :: occupied res.2 ≡ₚ occupied pq)).
  { intros res Hrun Hfree.
    apply bind_returns in Hrun as ([e1 pq1] & Hrun & [= <-]).
    apply dequeue_spec in Hrun
      as [(Hz & -> & ->)|(Hpos & -> & Hw1 & Hheap1 & Hs1 & Hm1 & He1 & Hperm)];
      try done.
    - left. split; [done|]. simpl.
      rewrite give_taken_mutex by done.
      by rewrite (with_mutex_restore pq0).
    - right. simpl in *. rewrite Hm1, give_taken_mutex by done.
      split_and!; try done.
      unfold invariant. split_and!; try done.
      + unfold in_capacity in *. simpl in *. lia.
      + simpl. rewrite He1. by apply taken_event_semaphore. }
  destruct c.
  - destruct (decide (0 < uxCount (mutex pq))) as [Hfree|Hbusy].
    + rewrite take_available by done. simpl. intros Hrun.
      apply Hcritical in Hrun as [[Hz [= -> -> ->]]|Hrun]; [| |done].
      * right. left. split_and!; (done || lia).
      * right. right. simpl in Hrun. destruct Hrun as (? & -> & -> & ? & ? & ? & ? & ?).
        split_and!; (done || lia).
    + by rewrite take_blocks by (simpl; lia).
  - destruct (decide (0 < uxCount (mutex pq))) as [Hfree|Hbusy].
    + rewrite take_available by done. simpl. intros Hrun.
      apply Hcritical in Hrun as [[Hz [= -> -> ->]]|Hrun]; [| |done].
      * right. left. split_and!; (done || lia).
      * right. right. simpl in Hrun. destruct Hrun as (? & -> & -> & ? & ? & ? & ? & ?).
        split_and!; (done || lia).
    + rewrite take_expires by (done || simpl; lia). simpl.
      intros [= <- <- <-]. left. split_and!; (done || lia).
Qed.

(** ** Sequences of calls keep the invariant *)

Lemma invariant_new_queue (c : copy) (block : nat -> pq_event_t) :
  invariant c (new_queue c block).
Proof.
  unfold invariant, new_queue. split_and!; simpl.
  - reflexivity.
  - unfold in_capacity, PQ_MAX_EVENT_SIZE. simpl. lia.
  - intros ch Hch. simpl in Hch. lia.
  - unfold is_mutex. simpl. lia.
  - destruct c; vm_compute; intuition discriminate.
Qed.

Lemma step_invariant (c : copy) (fuel : nat) (pq : pq_handle_t) (k : call)
  (r : reply) (pq' : pq_handle_t) :
  invariant c pq -> step c fuel pq k = Returns (r, pq') -> invariant c pq'.
Proof.
  intros Hinv. destruct k as [event t|buffer t| |]; simpl.
  - intros Hrun. apply bind_returns in Hrun as ([r1 pq1] & Hrun & [= <- <-]).
    apply send_spec in Hrun as [(_ & -> & _)|(_ & ? & _)]; done.
  - intros Hrun. apply bind_returns in Hrun as ([[r1 e1] pq1] & Hrun & [= <- <-]).
    destruct Hinv as (Hw & Hc & Hheap & Hm & Hs).
    apply receive_spec in Hrun
      as [(_ & _ & _ & ->)|[(? & _ & _ & _ & _ & ->)|[(? & _ & _ & _ & _ & ->)|
          (_ & _ & _ & _ & _ & ? & _)]]]; try done.
    + split_and!; try done. by apply taken_event_semaphore.
    + split_and!; try done. by apply taken_event_semaphore.
  - destruct Hinv as (Hw & Hc & Hheap & Hm & Hs).
    destruct (Z.ltb_spec 0 (uxCount (mutex pq))) as [Hfree|].
    + rewrite take_available by done. simpl. intros [= <- <-].
      split_and!; try done. unfold is_mutex, taken in *. simpl. lia.
    + rewrite take_expires by done. simpl. by intros [= <- <-].
  - destruct Hinv as (Hw & Hc & Hheap & Hm & Hs).
    intros [= <- <-]. split_and!; try done.
    unfold is_mutex, xSemaphoreGive in *. simpl.
    destruct (Z.ltb_spec (uxCount (mutex pq)) (uxMaxCount (mutex pq))); simpl; lia.
Qed.

Lemma run_invariant (c : copy) (fuel : nat) (ks : list call) :
  forall (pq : pq_handle_t) (rs : list reply) (pq' : pq_handle_t),
    invariant c pq -> run c fuel pq ks = Returns (rs, pq') -> invariant c pq'.
Proof.
  induction ks as [|k ks IH]; intros pq rs pq' Hinv; simpl.
  - by intros [= <- <-].
  - intros Hrun. apply bind_returns in Hrun as ([r1 pq1] & Hstep & Hrun).
    apply bind_returns in Hrun as ([rs2 pq2] & Hrun & [= <- <-]).
    eapply IH; [|done]. by eapply step_invariant.
Qed.

Lemma reachable_invariant (c : copy) (pq : pq_handle_t) :
  reachable c pq -> invariant c pq.
Proof.
  intros (block & fuel & ks & rs & Hrun).
  eapply run_invariant; [|done]. apply invariant_new_queue.
Qed.

Lemma step_part_001 (fuel : nat) (pq : pq_handle_t) (k : call)
  (r : reply) (pq' : pq_handle_t) :
  invariant part_001 pq -> signalled_within pq ->
  step part_001 fuel pq k = Returns (r, pq') ->
  signalled_within pq' /\
  size pq' = size pq + sends_passed [r] - receives_passed [r].
Proof.
  intros Hinv Hsig. unfold signalled_within in *.
  destruct k as [event t|buffer t| |]; simpl.
  - intros Hrun. apply bind_returns in Hrun as ([r1 pq1] & Hrun & [= <- <-]).
    apply send_spec in Hrun; [|done].
    destruct Hrun as [(-> & -> & _)|(-> & _ & _ & ? & Hs & _ & Hc & _)]; simpl.
    + lia.
    + rewrite Hc, Hs. lia.
  - intros Hrun. apply bind_returns in Hrun as ([[r1 e1] pq1] & Hrun & [= <- <-]).
    apply receive_spec in Hrun; [|done].
    destruct Hrun
      as [(_ & -> & _ & ->)|[(? & _ & _ & -> & _ & ->)|[(? & _ & ? & _ & _ & ->)|
          (? & _ & _ & -> & _ & _ & Hs & _ & He & _)]]]; simpl; try lia.
    rewrite He, Hs. simpl. lia.
  - destruct (Z.ltb_spec 0 (uxCount (mutex pq))) as [Hfree|].
    + rewrite take_available by done. simpl. intros [= <- <-]. simpl. lia.
    + rewrite take_expires by done. simpl. intros [= <- <-]. simpl. lia.
  - intros [= <- <-]. simpl. lia.
Qed.

Lemma sends_passed_cons (r : reply) (rs : list reply) :
  sends_passed (r :: rs) = sends_passed [r] + sends_passed rs.
Proof. destruct r; simpl; lia. Qed.

Lemma receives_passed_cons (r : reply) (rs : list reply) :
  receives_passed (r :: rs) = receives_passed [r] + receives_passed rs.
Proof. destruct r; simpl; lia. Qed.

Lemma run_part_001 (fuel : nat) (ks : list call) :
  forall (pq : pq_handle_t) (rs : list reply) (pq' : pq_handle_t),
    invariant part_001 pq -> signalled_within pq ->
    run part_001 fuel pq ks = Returns (rs, pq') ->
    signalled_within pq' /\
    size pq' = size pq + sends_passed rs - receives_passed rs.
Proof.
  induction ks as [|k ks IH]; intros pq rs pq' Hinv Hsig; simpl.
  - intros [= <- <-]. simpl. split; [done|lia].
  - intros Hrun. apply bind_returns in Hrun as ([r1 pq1] & Hstep & Hrun).
    apply bind_returns in Hrun as ([rs2 pq2] & Hrun & [= <- <-]).
    pose proof (step_invariant _ _ _ _ _ _ Hinv Hstep) as Hinv1.
    apply step_part_001 in Hstep as [Hsig1 Hsz1]; [|done..].
    apply IH in Hrun as [Hsig2 Hsz2]; [|done..].
    split; [done|].
    rewrite sends_passed_cons, receives_passed_cons. lia.
Qed.

(** ** From the order on parents to the order of the specification *)

Lemma heap_order_max_heap (pq : pq_handle_t) :
  heap_order part_001 pq -> max_heap pq.
Proof.
  intros Hheap i child Hi Hchild Hlt.
  assert (Hpar : Z.quot (child - 1) 2 = i) by lia.
  pose proof (Hheap child ltac:(lia)) as H. rewrite Hpar in H.
  unfold key_at, key in H. unfold priority_at. lia.
Qed.

Lemma heap_order_root (c : copy) (pq : pq_handle_t) :
  heap_order c pq -> forall j : Z, 0 <= j < size pq -> key_at c pq j <= key_at c pq 0.
Proof.
  intros Hheap.
  assert (H : forall (n : nat) (j : Z), 0 <= j <= Z.of_nat n -> j < size pq ->
                key_at c pq j <= key_at c pq 0).
  { induction n as [|n IH]; intros j Hj Hlt.
    - assert (j = 0) as -> by lia. lia.
    - destruct (decide (j = 0)) as [->|Hne]; [lia|].
      pose proof (Hheap j ltac:(lia)). 
      pose proof (IH (Z.quot (j - 1) 2) ltac:(lia) ltac:(lia)). lia. }
  intros j Hj. apply (H (Z.to_nat j)); lia.
Qed.

Lemma heap_order_root_is_max (pq : pq_handle_t) :
  heap_order part_001 pq -> root_is_max pq.
Proof.
  intros Hheap j Hj. pose proof (heap_order_root _ _ Hheap j Hj) as H.
  unfold key_at, key in H. unfold priority_at. lia.
Qed.

(** ** Calls return *)

Lemma send_returns (c : copy) (fuel : nat) (pq : pq_handle_t) (event : pq_event_t)
  (t : TickType_t) :
  invariant c pq -> (10 <= fuel)%nat ->
  0 < uxCount (mutex pq) \/ t <> portMAX_DELAY ->
  exists r pq', xPriorityQueueSend c fuel pq event t = Returns (r, pq').
Proof.
  intros (Hw & Hc & Hheap & Hm & Hs) Hfuel Ht. unfold xPriorityQueueSend.
  unfold in_capacity, PQ_MAX_EVENT_SIZE in Hc.
  destruct (decide (0 < uxCount (mutex pq))) as [Hfree|Hbusy].
  - rewrite take_available by done. simpl.
    destruct (Z.leb_spec PQ_MAX_EVENT_SIZE (size pq)) as [Hfull|Hroom]; [by eauto|].
    unfold PQ_MAX_EVENT_SIZE in Hroom.
    destruct (enqueue_returns c fuel (with_mutex pq (taken (mutex pq))) event)
      as [pq1 ->]; simpl; [done|unfold PQ_MAX_EVENT_SIZE; lia|lia|by eauto].
  - rewrite take_expires by (lia || by destruct Ht). simpl. by eauto.
Qed.

Lemma receive_returns (c : copy) (fuel : nat) (pq : pq_handle_t) (buffer : pq_event_t)
  (t : TickType_t) :
  invariant c pq -> (10 <= fuel)%nat ->
  0 < uxCount (eventSemaphore pq) \/ t <> portMAX_DELAY ->
  (c = app_src -> 0 < uxCount (eventSemaphore pq) -> 0 < uxCount (mutex pq)) ->
  exists r e pq', xPriorityQueueReceive c fuel pq buffer t = Returns (r, e, pq').
Proof.
  intros (Hw & Hc & Hheap & Hm & Hs) Hfuel Ht Hlock. unfold xPriorityQueueReceive.
  pose proof Hc as Hc'. unfold in_capacity, PQ_MAX_EVENT_SIZE in Hc'.
  destruct (decide (0 < uxCount (eventSemaphore pq))) as [Hsig|Hnone].
  2:{ rewrite take_expires by (lia || by destruct Ht). simpl. by eauto. }
  rewrite take_available by done. simpl.
  set (pq0 := with_eventSemaphore pq (taken (eventSemaphore pq))).
  assert (Hdq : forall m, exists e pq1, dequeue c fuel (with_mutex pq0 m) buffer
                                        = Returns (e, pq1)).
  { intros m. apply dequeue_returns; [done|done|simpl; lia|lia]. }
  destruct c.
  - rewrite take_available by auto. simpl.
    destruct (Hdq (taken (mutex pq))) as (e & pq1 & ->). simpl. by eauto.
  - destruct (decide (0 < uxCount (mutex pq))) as [Hfree|Hbusy].
    + rewrite take_available by done. simpl.
      destruct (Hdq (taken (mutex pq))) as (e & pq1 & ->). simpl. by eauto.
    + rewrite take_expires by (done || simpl; lia). simpl. by eauto.
Qed.

Lemma run_app (c : copy) (fuel : nat) (ks1 ks2 : list call) :
  forall pq : pq_handle_t,
    run c fuel pq (ks1 ++ ks2) =
      '(rs1, pq1) ← run c fuel pq ks1;
      '(rs2, pq2) ← run c fuel pq1 ks2;
      Returns (rs1 ++ rs2, pq2).
Proof.
  induction ks1 as [|k ks1 IH]; intros pq; simpl.
  - destruct (run c fuel pq ks2) as [[rs2 pq2]| | |]; done.
  - destruct (step c fuel pq k) as [[r pq1]| | |]; simpl; try done.
    rewrite IH. destruct (run c fuel pq1 ks1) as [[rs1 pq2]| | |]; simpl; try done.
    destruct (run c fuel pq2 ks2) as [[rs2 pq3]| | |]; done.
Qed.

Lemma run_cons_send (c : copy) (fuel : nat) (pq : pq_handle_t) (e : pq_event_t)
  (t : TickType_t) (ks : list call) :
  run c fuel pq (CallSend e t :: ks) =
    '(r, pq1) ← xPriorityQueueSend c fuel pq e t;
    '(rs, pq2) ← run c fuel pq1 ks;
    Returns (SendReply r :: rs, pq2).
Proof.
  simpl. by destruct (xPriorityQueueSend c fuel pq e t) as [[r pq1]| | |].
Qed.

Lemma run_cons_receive (c : copy) (fuel : nat) (pq : pq_handle_t) (b : pq_event_t)
  (t : TickType_t) (ks : list call) :
  run c fuel pq (CallReceive b t :: ks) =
    '(r, e, pq1) ← xPriorityQueueReceive c fuel pq b t;
    '(rs, pq2) ← run c fuel pq1 ks;
    Returns (ReceiveReply r e :: rs, pq2).
Proof.
  simpl. by destruct (xPriorityQueueReceive c fuel pq b t) as [[[r e] pq1]| | |].
Qed.

Lemma run_sends (c : copy) (fuel : nat) (sent : list (pq_event_t * TickType_t)) :
  forall pq : pq_handle_t,
    invariant c pq -> (10 <= fuel)%nat -> uxCount (mutex pq) = 1 ->
    size pq + Z.of_nat (length sent) <= PQ_MAX_EVENT_SIZE ->
    exists pq',
      run c fuel pq (map send_call sent)
        = Returns (map (fun _ => SendReply pdPASS) sent, pq') /\
      invariant c pq' /\ uxCount (mutex pq') = 1 /\
      size pq' = size pq + Z.of_nat (length sent) /\
      uxCount (eventSemaphore pq') =
        Z.min (uxCount (eventSemaphore pq) + Z.of_nat (length sent)) PQ_MAX_EVENT_SIZE /\
      occupied pq' ≡ₚ sent.*1 ++ occupied pq.
Proof.
  induction sent as [|[e t] sent IH]; intros pq Hinv Hfuel Hfree Hroom.
  - exists pq. simpl. split_and!; try done; [lia|].
    destruct Hinv as (_ & _ & _ & _ & [_ ?]). lia.
  - simpl in Hroom.
    change (map send_call ((e, t) :: sent)) with (CallSend e t :: map send_call sent).
    destruct (send_returns c fuel pq e t) as (r & pq1 & Hsend); [done|done|lia|].
    rewrite run_cons_send, Hsend. simpl.
    apply send_spec in Hsend; [|done].
    destruct Hsend as [(_ & _ & [?|?])|(-> & Hinv1 & _ & _ & Hs1 & Hm1 & Hc1 & Hp1)];
      [lia|lia|].
    destruct (IH pq1) as (pq' & -> & Hinv' & Hm' & Hs' & Hc' & Hp');
      [done|done|by rewrite Hm1|lia|].
    exists pq'. simpl. split_and!; try done; [lia| |].
    + rewrite Hc', Hc1. lia.
    + rewrite Hp', Hp1. by rewrite Permutation_middle.
Qed.

Lemma elem_of_occupied (pq : pq_handle_t) (x : pq_event_t) :
  x ∈ occupied pq -> exists j, 0 <= j < size pq /\ x = cell pq j.
Proof.
  unfold occupied, cell. intros Hin.
  apply list_elem_of_lookup in Hin as [i Hi].
  apply lookup_take_Some in Hi as [Hi Hlt].
  exists (Z.of_nat i). split; [lia|].
  rewrite Nat2Z.id. symmetry. by apply list_lookup_total_correct.
Qed.

Lemma run_receives (c : copy) (fuel : nat) (asked : list (pq_event_t * TickType_t)) :
  forall pq : pq_handle_t,
    invariant c pq -> (10 <= fuel)%nat -> uxCount (mutex pq) = 1 ->
    Z.of_nat (length asked) = size pq ->
    size pq <= uxCount (eventSemaphore pq) ->
    exists (out : list pq_event_t) (pq' : pq_handle_t),
      run c fuel pq (map receive_call asked)
        = Returns (map (ReceiveReply pdPASS) out, pq') /\
      invariant c pq' /\ size pq' = 0 /\ uxCount (mutex pq') = 1 /\
      out ≡ₚ occupied pq /\ Sorted Z.ge (map (key c) out).
Proof.
  induction asked as [|[b t] asked IH]; intros pq Hinv Hfuel Hfree Hlen Hsig.
  - exists [], pq. simpl in *. split_and!; try done; try lia; try constructor.
    unfold occupied. by rewrite <- Hlen.
  - simpl in Hlen.
    change (map receive_call ((b, t) :: asked))
      with (CallReceive b t :: map receive_call asked).
    destruct (receive_returns c fuel pq b t) as (r & e & pq1 & Hrecv);
      [done|done|lia|lia|].
    rewrite run_cons_receive, Hrecv. simpl.
    apply receive_spec in Hrecv; [|done].
    destruct Hrecv
      as [(? & _)|[(_ & ? & _)|[(_ & _ & ? & _)|
          (_ & _ & _ & -> & -> & Hinv1 & Hs1 & Hm1 & He1 & Hp1)]]]; try lia.
    destruct (IH pq1) as (out & pq' & -> & Hinv' & Hs' & Hm' & Hp' & Hsorted);
      [done|done|by rewrite Hm1|lia|rewrite He1; simpl; lia|].
    exists (cell pq 0 :: out), pq'. simpl. split_and!; try done.
    + by rewrite Hp', Hp1.
    + constructor; [done|].
      destruct out as [|o out]; simpl; constructor.
      assert (Ho : o ∈ occupied pq).
      { rewrite <- Hp1, <- Hp'. apply list_elem_of_further, list_elem_of_here. }
      apply elem_of_occupied in Ho as (j & Hj & ->).
      destruct Hinv as (_ & _ & Hheap & _).
      pose proof (heap_order_root c pq Hheap j Hj). unfold key_at in *. lia.
Qed.

(** ** No access leaves the array *)

Lemma load_in_range (pq : pq_handle_t) (i : Z) :
  0 <= i < array_length pq -> exists e, load pq i = Returns e.
Proof.
  unfold array_length, load. intros Hi.
  destruct (Z.ltb_spec i 0); [lia|].
  destruct (lookup_lt_is_Some_2 (events pq) (Z.to_nat i)) as [e ->]; [lia|].
  by eexists.
Qed.

Lemma store_in_range (pq : pq_handle_t) (i : Z) (e : pq_event_t) :
  0 <= i < array_length pq ->
  store pq i e = Returns (with_events pq (<[Z.to_nat i := e]> (events pq))).
Proof.
  unfold array_length, store. intros Hi.
  destruct (Z.ltb_spec i 0); [lia|].
  by destruct (lookup_lt_is_Some_2 (events pq) (Z.to_nat i)) as [e' ->]; [lia|].
Qed.

Lemma swap_in_range (pq : pq_handle_t) (a b : Z) :
  0 <= a < array_length pq -> 0 <= b < array_length pq ->
  exists pq', _swap pq a b = Returns pq' /\
              array_length pq' = array_length pq /\ size pq' = size pq.
Proof.
  intros Ha Hb. unfold _swap.
  destruct (load_in_range pq a Ha) as [ea ->].
  destruct (load_in_range pq b Hb) as [eb ->]. simpl.
  rewrite store_in_range by done. simpl.
  rewrite store_in_range by (unfold array_length in *; simpl; by rewrite length_insert).
  eexists. split; [done|]. unfold array_length. simpl. by rewrite !length_insert.
Qed.

Lemma heapifyUp_no_fault (c : copy) (fuel : nat) :
  forall (pq : pq_handle_t) (k : Z),
    0 <= k < array_length pq -> _heapifyUp c fuel pq k <> OutOfBounds.
Proof.
  induction fuel as [|fuel IH]; intros pq k Hk; [done|]. simpl.
  destruct (Z.geb_spec (Z.quot (k - 1) 2) 0) as [Hp|]; [|done].
  assert (Hpk : 0 <= Z.quot (k - 1) 2 < array_length pq) by lia.
  destruct (load_in_range pq k Hk) as [ek ->].
  destruct (load_in_range pq _ Hpk) as [ep ->]. simpl.
  destruct (moves_up c (priority ek) (priority ep)); [|done].
  destruct (swap_in_range pq k _ Hk Hpk) as (pq' & -> & Hlen & _). simpl.
  apply IH. lia.
Qed.

Lemma pick_no_fault (c : copy) (pq : pq_handle_t) (child best : Z) :
  0 <= best < child -> size pq <= array_length pq ->
  exists b, pick c pq child best = Returns b /\
            (b = best \/ (b = child /\ child < size pq)).
Proof.
  intros Hb Hfit. unfold pick.
  destruct (Z.ltb_spec child (size pq)) as [Hlt|]; [|by eauto].
  destruct (load_in_range pq child) as [ec ->]; [lia|].
  destruct (load_in_range pq best) as [eb ->]; [lia|]. simpl.
  destruct (moves_up c (priority ec) (priority eb)); eauto.
Qed.

Lemma heapifyDown_no_fault (c : copy) (fuel : nat) :
  forall (pq : pq_handle_t) (k : Z),
    0 <= k -> size pq <= array_length pq -> _heapifyDown c fuel pq k <> OutOfBounds.
Proof.
  induction fuel as [|fuel IH]; intros pq k Hk Hfit; [done|]. simpl.
  destruct (pick_no_fault c pq (2 * k + 1) k) as (b1 & -> & Hb1); [lia|done|]. simpl.
  destruct (pick_no_fault c pq (2 * k + 2) b1) as (b2 & -> & Hb2); [lia|done|]. simpl.
  destruct (Z.eqb_spec b2 k) as [|Hne]; [done|]. simpl.
  destruct (swap_in_range pq k b2) as (pq' & -> & Hlen & Hsz); [lia|lia|]. simpl.
  apply IH; lia.
Qed.

Lemma bind_no_fault {A B : Type} (m : outcome A) (k : A -> outcome B) :
  m <> OutOfBounds -> (forall a, m = Returns a -> k a <> OutOfBounds) ->
  m ≫= k <> OutOfBounds.
Proof. destruct m; simpl; auto. Qed.

Lemma take_no_fault (s : SemaphoreHandle_t) (t : TickType_t) :
  xSemaphoreTake s t <> OutOfBounds.
Proof. unfold xSemaphoreTake. by repeat case_match. Qed.

Lemma enqueue_no_fault (c : copy) (fuel : nat) (pq : pq_handle_t) (event : pq_event_t) :
  0 <= size pq < array_length pq -> enqueue c fuel pq event <> OutOfBounds.
Proof.
  intros Hsz. unfold enqueue. rewrite store_in_range by done. simpl.
  apply heapifyUp_no_fault. unfold array_length in *. simpl.
  rewrite length_insert. lia.
Qed.

Lemma dequeue_no_fault (c : copy) (fuel : nat) (pq : pq_handle_t) (buffer : pq_event_t) :
  size pq <= array_length pq -> dequeue c fuel pq buffer <> OutOfBounds.
Proof.
  intros Hsz. unfold dequeue.
  destruct (Z.ltb_spec 0 (size pq)) as [Hpos|]; [|done].
  destruct (load_in_range pq 0) as [e0 ->]; [lia|].
  destruct (load_in_range pq (size pq - 1)) as [el ->]; [lia|]. simpl.
  rewrite store_in_range by lia. simpl.
  apply bind_no_fault; [|by intros].
  apply heapifyDown_no_fault; [done|].
  unfold array_length in *. simpl. rewrite length_insert. lia.
Qed.

Lemma send_no_fault (c : copy) (fuel : nat) (pq : pq_handle_t) (event : pq_event_t)
  (t : TickType_t) :
  well_sized pq -> 0 <= size pq -> xPriorityQueueSend c fuel pq event t <> OutOfBounds.
Proof.
  intros Hw Hsz. unfold xPriorityQueueSend.
  apply bind_no_fault; [apply take_no_fault|]. intros [r m] _.
  destruct (r =? pdTRUE); [|done]. simpl.
  destruct (Z.leb_spec PQ_MAX_EVENT_SIZE (size pq)); [done|].
  apply bind_no_fault; [|by intros].
  apply enqueue_no_fault. unfold array_length. simpl.
  rewrite Hw. unfold PQ_MAX_EVENT_SIZE in *. lia.
Qed.

Lemma receive_no_fault (c : copy) (fuel : nat) (pq : pq_handle_t) (buffer : pq_event_t)
  (t : TickType_t) :
  size pq <= array_length pq -> xPriorityQueueReceive c fuel pq buffer t <> OutOfBounds.
Proof.
  intros Hsz. unfold xPriorityQueueReceive.
  apply bind_no_fault; [apply take_no_fault|]. intros [r s] _.
  destruct (r =? pdTRUE); [|done].
  destruct c.
  - apply bind_no_fault; [apply take_no_fault|]. intros [r1 m] _.
    apply bind_no_fault; [by apply dequeue_no_fault|]. by intros [e pq1] _.
  - apply bind_no_fault; [apply take_no_fault|]. intros [r1 m] _.
    destruct (r1 =? pdTRUE); [|done].
    apply bind_no_fault; [by apply dequeue_no_fault|]. by intros [e pq1] _.
Qed.

(** ** The new queue and the states that are reached *)

(** A create whose allocations succeed returns [new_queue]. *)
Lemma create_returns_new_queue (c : copy) (w : world) (k : kernel) :
  pvPortMalloc_ok w = true -> xSemaphoreCreateMutex_ok w = true ->
  xSemaphoreCreateCounting_ok w = true ->
  xPriorityQueueCreate c w k
    = (Some (new_queue c (fresh_block w)),
       {| blocks_in_use := S (blocks_in_use k);
          semaphores_in_use := S (S (semaphores_in_use k)) |}).
Proof.
  unfold xPriorityQueueCreate, pvPortMalloc, create_semaphore.
  by intros -> -> ->.
Qed.

Lemma reachable_after (c : copy) (ks : list call) :
  (exists rs pq, run c 10 (new_queue c blank) ks = Returns (rs, pq)) ->
  reachable c (after c ks).
Proof.
  intros (rs & pq & Hrun). exists blank, 10%nat, ks, rs.
  unfold after. by rewrite Hrun.
Qed.

(** * The claims *)

(** ** C1: the heap order *)

(** In [part_001] every reachable state is a max-heap whose root is the
    maximum. *)
Theorem part_001_keeps_max_heap (pq : pq_handle_t) :
  reachable part_001 pq -> max_heap pq /\ root_is_max pq.
Proof.
  intros Hreach. apply reachable_invariant in Hreach as (_ & _ & Hheap & _).
  split; [by apply heap_order_max_heap|by apply heap_order_root_is_max].
Qed.

(** C1 says that the max-heap order holds in every state reachable from a
    new queue.  In [app_src] it does not: after the sends of a Low and then
    of a High event the root still holds the Low event, below its child. *)
Theorem app_src_root_holds_lowest :
  exists pq : pq_handle_t,
    run app_src 10 (new_queue app_src blank) [CallSend low 0; CallSend high 0]
      = Returns ([SendReply pdPASS; SendReply pdPASS], pq) /\
    size pq = 2 /\ cell pq 0 = low /\ cell pq 1 = high /\
    ~ max_heap pq /\ ~ root_is_max pq.
Proof.
  eexists. split; [vm_compute; reflexivity|].
  split_and!; try reflexivity.
  - intros H.
    pose proof (H 0 1 ltac:(lia) ltac:(by left) ltac:(reflexivity)) as X.
    vm_compute in X. by apply X.
  - intros H. pose proof (H 1 ltac:(simpl; lia)) as X.
    vm_compute in X. by apply X.
Qed.

(** ** C2: the order of the receives *)

(** In both copies at most ten sends into a new queue, then as many
    receives, all pass; the events received are the events sent, sorted by
    the key of the copy. *)
Theorem sends_then_receives (c : copy) (fuel : nat) (block : nat -> pq_event_t)
  (sent asked : list (pq_event_t * TickType_t)) :
  (10 <= fuel)%nat -> (length sent <= 10)%nat -> length asked = length sent ->
  exists (out : list pq_event_t) (pq : pq_handle_t),
    run c fuel (new_queue c block) (map send_call sent ++ map receive_call asked)
      = Returns (map (fun _ => SendReply pdPASS) sent
                 ++ map (ReceiveReply pdPASS) out, pq) /\
    out ≡ₚ sent.*1 /\ Sorted Z.ge (map (key c) out) /\ size pq = 0.
Proof.
  intros Hfuel Hlen Hasked.
  destruct (run_sends c fuel sent (new_queue c block))
    as (pq1 & Hrun1 & Hinv1 & Hm1 & Hs1 & Hc1 & Hp1);
    [apply invariant_new_queue|done|done| |].
  { change (size (new_queue c block)) with 0. unfold PQ_MAX_EVENT_SIZE. lia. }
  change (size (new_queue c block)) with 0 in Hs1.
  change (uxCount (eventSemaphore (new_queue c block))) with (initial_count c) in Hc1.
  destruct (run_receives c fuel asked pq1)
    as (out & pq2 & Hrun2 & Hinv2 & Hs2 & Hm2 & Hp2 & Hsorted);
    [done|done|done|lia| |].
  { rewrite Hc1, Hs1. unfold initial_count, PQ_MAX_EVENT_SIZE. destruct c; lia. }
  exists out, pq2. rewrite run_app, Hrun1. simpl. rewrite Hrun2. simpl.
  split_and!; try done.
  rewrite Hp2, Hp1. unfold occupied. simpl. by rewrite app_nil_r.
Qed.

(** In [part_001] the receives return non-increasing priorities. *)
Theorem part_001_receives_non_increasing (fuel : nat) (block : nat -> pq_event_t)
  (sent asked : list (pq_event_t * TickType_t)) :
  (10 <= fuel)%nat -> (length sent <= 10)%nat -> length asked = length sent ->
  exists (out : list pq_event_t) (pq : pq_handle_t),
    run part_001 fuel (new_queue part_001 block)
        (map send_call sent ++ map receive_call asked)
      = Returns (map (fun _ => SendReply pdPASS) sent
                 ++ map (ReceiveReply pdPASS) out, pq) /\
    out ≡ₚ sent.*1 /\
    Sorted Z.ge (map (fun e => enum_value (priority e)) out).
Proof.
  intros Hfuel Hlen Hasked.
  destruct (sends_then_receives part_001 fuel block sent asked)
    as (out & pq & Hrun & Hperm & Hsorted & _); [done..|].
  by exists out, pq.
Qed.

(** In [part_001] the sends of Low, High, Medium are received as High,
    Medium, Low, and the fourth receive fails. *)
Lemma part_001_scenario :
  exists pq : pq_handle_t,
    run part_001 10 (new_queue part_001 blank)
        [CallSend low 0; CallSend high 0; CallSend medium 0;
         CallReceive low 0; CallReceive low 0; CallReceive high 0; CallReceive high 0]
      = Returns ([SendReply pdPASS; SendReply pdPASS; SendReply pdPASS;
                  ReceiveReply pdPASS high; ReceiveReply pdPASS medium;
                  ReceiveReply pdPASS low; ReceiveReply pdFAIL high], pq).
Proof. eexists. vm_compute. reflexivity. Qed.

Lemma Sorted_key_app_src (out : list pq_event_t) :
  Sorted Z.ge (map (key app_src) out) ->
  Sorted Z.le (map (fun e => enum_value (priority e)) out).
Proof.
  induction out as [|e out IH]; simpl; intros H; [constructor|].
  inversion H as [|? ? Hs Hhd]; subst. constructor; [by apply IH|].
  destruct out as [|o out]; simpl in *; constructor.
  inversion Hhd as [|? ? Hge]; subst. unfold key in Hge. lia.
Qed.

(** In [app_src] the receives return non-decreasing priorities. *)
Theorem app_src_receives_non_decreasing (fuel : nat) (block : nat -> pq_event_t)
  (sent asked : list (pq_event_t * TickType_t)) :
  (10 <= fuel)%nat -> (length sent <= 10)%nat -> length asked = length sent ->
  exists (out : list pq_event_t) (pq : pq_handle_t),
    run app_src fuel (new_queue app_src block)
        (map send_call sent ++ map receive_call asked)
      = Returns (map (fun _ => SendReply pdPASS) sent
                 ++ map (ReceiveReply pdPASS) out, pq) /\
    out ≡ₚ sent.*1 /\
    Sorted Z.le (map (fun e => enum_value (priority e)) out).
Proof.
  intros Hfuel Hlen Hasked.
  destruct (sends_then_receives app_src fuel block sent asked)
    as (out & pq & Hrun & Hperm & Hsorted & _); [done..|].
  exists out, pq. split_and!; try done. by apply Sorted_key_app_src.
Qed.

(** C2 says that the receives which follow N sends return the events in
    non-increasing priority, High, Medium, Low after the sends of Low, High,
    Medium.  [app_src] returns them Low, Medium, High. *)
Theorem app_src_scenario_lowest_first :
  exists pq : pq_handle_t,
    run app_src 10 (new_queue app_src blank)
        [CallSend low 0; CallSend high 0; CallSend medium 0;
         CallReceive high 0; CallReceive high 0; CallReceive low 0]
      = Returns ([SendReply pdPASS; SendReply pdPASS; SendReply pdPASS;
                  ReceiveReply pdPASS low; ReceiveReply pdPASS medium;
                  ReceiveReply pdPASS high], pq) /\
    ~ Sorted Z.ge (map (fun e => enum_value (priority e)) [low; medium; high]).
Proof.
  eexists. split; [vm_compute; reflexivity|].
  intros H. inversion H as [|? ? _ Hhd]. inversion Hhd as [|? ? Hge].
  vm_compute in Hge. by apply Hge.
Qed.

(** ** C3: the queue after its creation *)

(** In [part_001] the new queue has size 0 and count 0, and a receive finds
    no event. *)
Theorem part_001_create_starts_empty (block : nat -> pq_event_t) (k : kernel) :
  exists (pq : pq_handle_t) (k' : kernel),
    xPriorityQueueCreate part_001 (all_succeed block) k = (Some pq, k') /\
    size pq = 0 /\ uxCount (eventSemaphore pq) = 0 /\
    (forall (fuel : nat) (buffer : pq_event_t) (t : TickType_t),
       t <> portMAX_DELAY ->
       xPriorityQueueReceive part_001 fuel pq buffer t = Returns (pdFAIL, buffer, pq)) /\
    (forall (fuel : nat) (buffer : pq_event_t),
       xPriorityQueueReceive part_001 fuel pq buffer portMAX_DELAY = BlocksForever).
Proof.
  do 2 eexists. split; [reflexivity|]. split_and!; try reflexivity.
  intros fuel buffer t Ht. unfold xPriorityQueueReceive.
  rewrite take_expires by done. done.
Qed.

(** C3 says that the queue which create returns has size 0 and an
    availability count of 0, so that a receiver finds no event before a
    send.  In [app_src] the count starts at [PQ_MAX_EVENT_SIZE], and the
    receive which follows the creation returns [pdPASS] with the buffer of
    the caller as it was. *)
Theorem app_src_create_starts_full (block : nat -> pq_event_t) (k : kernel) :
  exists (pq : pq_handle_t) (k' : kernel),
    xPriorityQueueCreate app_src (all_succeed block) k = (Some pq, k') /\
    size pq = 0 /\ uxCount (eventSemaphore pq) = PQ_MAX_EVENT_SIZE /\
    forall (fuel : nat) (buffer : pq_event_t) (t : TickType_t),
      xPriorityQueueReceive app_src fuel pq buffer t
        = Returns (pdPASS, buffer,
                   with_eventSemaphore pq (taken (eventSemaphore pq))).
Proof.
  do 2 eexists. split; [reflexivity|]. split_and!; try reflexivity.
Qed.

(** ** C4: the send to a full queue *)

(** C4: in every state whose size is [PQ_MAX_EVENT_SIZE] a send returns
    [pdFAIL] and leaves the state as it was, the array, the size and both
    semaphores; no stored event is displaced, dropped or overwritten. *)
Theorem send_to_full_queue_fails (c : copy) (fuel : nat) (pq : pq_handle_t)
  (event : pq_event_t) (t : TickType_t) :
  is_mutex (mutex pq) -> size pq = PQ_MAX_EVENT_SIZE ->
  0 < uxCount (mutex pq) \/ t <> portMAX_DELAY ->
  xPriorityQueueSend c fuel pq event t = Returns (pdFAIL, pq).
Proof.
  intros Hm Hfull Ht. unfold xPriorityQueueSend.
  destruct (decide (0 < uxCount (mutex pq))) as [Hfree|Hbusy].
  - rewrite take_available by done. simpl.
    destruct (Z.leb_spec PQ_MAX_EVENT_SIZE (size pq)); [|lia].
    by rewrite give_taken_mutex, with_mutex_restore.
  - rewrite take_expires by (lia || by destruct Ht). done.
Qed.

Lemma send_to_full_queue_fails_witness :
  is_mutex (mutex (full_queue part_001)) /\
  size (full_queue part_001) = PQ_MAX_EVENT_SIZE /\
  xPriorityQueueSend part_001 10 (full_queue part_001) high 0
    = Returns (pdFAIL, full_queue part_001).
Proof.
  split; [|split].
  - vm_compute. intuition discriminate.
  - reflexivity.
  - apply (send_to_full_queue_fails part_001 10 (full_queue part_001) high 0).
    + vm_compute. intuition discriminate.
    + reflexivity.
    + left. vm_compute. reflexivity.
Defined.

(** ** C5: the receive that finds the queue empty *)

(** In both copies a receive that took the semaphore and the mutex and
    finds size 0 returns [pdPASS] and hands the buffer back as it was. *)
Theorem receive_finding_size_0 (c : copy) (fuel : nat) (pq : pq_handle_t)
  (buffer : pq_event_t) (t : TickType_t) :
  is_mutex (mutex pq) -> 0 < uxCount (mutex pq) ->
  0 < uxCount (eventSemaphore pq) -> size pq = 0 ->
  xPriorityQueueReceive c fuel pq buffer t
    = Returns (pdPASS, buffer, with_eventSemaphore pq (taken (eventSemaphore pq))).
Proof.
  intros Hm Hfree Hsig Hz. unfold xPriorityQueueReceive.
  rewrite take_available by done. simpl.
  set (pq0 := with_eventSemaphore pq (taken (eventSemaphore pq))).
  assert (Hdq : dequeue c fuel (with_mutex pq0 (taken (mutex pq))) buffer
                = Returns (buffer, with_mutex pq0 (taken (mutex pq)))).
  { unfold dequeue. simpl. rewrite Hz. done. }
  destruct c; rewrite take_available by done; simpl; rewrite Hdq; simpl;
    by rewrite give_taken_mutex, (with_mutex_restore pq0).
Qed.

(** C5 says that a receive which passes the availability wait and then
    finds size 0 returns a failure.  It releases the mutex and reads no
    element, but it returns [pdPASS]: in [app_src] on the queue as create
    returns it, in [part_001] on an empty queue whose semaphore counts 1. *)
Theorem receive_on_empty_queue_reports_success :
  xPriorityQueueReceive app_src 10 (new_queue app_src blank) high 0
    = Returns (pdPASS, high,
               with_eventSemaphore (new_queue app_src blank)
                 (xSemaphoreCreateCounting 10 9)) /\
  xPriorityQueueReceive part_001 10
      (with_eventSemaphore (new_queue part_001 blank) (xSemaphoreCreateCounting 10 1))
      high 0
    = Returns (pdPASS, high, new_queue part_001 blank).
Proof. split; vm_compute; reflexivity. Qed.

(** ** C6: the values a send returns *)

Lemma reachable_full_queue (c : copy) : reachable c (full_queue c).
Proof. apply reachable_after. destruct c; do 2 eexists; vm_compute; reflexivity. Qed.

Lemma reachable_busy_queue (c : copy) : reachable c (busy_queue c).
Proof. apply reachable_after. destruct c; do 2 eexists; vm_compute; reflexivity. Qed.

(** A full queue and a queue whose mutex another task holds are both
    reachable, and the send answers [pdFAIL] on both. *)
Lemma send_failures_are_not_distinguishable :
  ~ send_failures_distinguishable app_src /\ ~ send_failures_distinguishable part_001.
Proof.
  split; intros H.
  - apply (H 10%nat (full_queue app_src) (busy_queue app_src) high 0 pdFAIL pdFAIL
             (full_queue app_src) (busy_queue app_src));
      try apply reachable_full_queue; try apply reachable_busy_queue;
      try reflexivity.
  - apply (H 10%nat (full_queue part_001) (busy_queue part_001) high 0 pdFAIL pdFAIL
             (full_queue part_001) (busy_queue part_001));
      try apply reachable_full_queue; try apply reachable_busy_queue;
      try reflexivity.
Qed.

(** C6, amended: a send returns, unless it waits with [portMAX_DELAY] for a
    mutex that is held.  It returns [pdPASS] exactly when the mutex is free
    and the queue has room, and the event then is stored: the size grows by
    one and the event joins the occupied part of the array.  It returns
    [pdFAIL] otherwise; the send that fails on a full queue and the send
    that fails on the expired wait for the mutex return the same [pdFAIL]
    and leave the queue as it was, so the value tells a success from a
    failure and not one failure from the other. *)
Theorem send_returns_pdPASS_or_pdFAIL (c : copy) (fuel : nat) (pq : pq_handle_t)
  (event : pq_event_t) (t : TickType_t) :
  invariant c pq -> (10 <= fuel)%nat ->
  pdPASS <> pdFAIL /\
  ((uxCount (mutex pq) = 0 /\ t = portMAX_DELAY /\
    xPriorityQueueSend c fuel pq event t = BlocksForever) \/
   (exists (r : BaseType_t) (pq' : pq_handle_t),
      xPriorityQueueSend c fuel pq event t = Returns (r, pq') /\
      (uxCount (mutex pq) = 0 -> r = pdFAIL) /\
      (size pq = PQ_MAX_EVENT_SIZE -> r = pdFAIL) /\
      (uxCount (mutex pq) = 1 -> size pq < PQ_MAX_EVENT_SIZE -> r = pdPASS) /\
      ((r = pdPASS /\ uxCount (mutex pq) = 1 /\ size pq < PQ_MAX_EVENT_SIZE /\
        size pq' = size pq + 1 /\ occupied pq' ≡ₚ event :: occupied pq /\
        mutex pq' = mutex pq /\
        uxCount (eventSemaphore pq') =
          Z.min (uxCount (eventSemaphore pq) + 1) PQ_MAX_EVENT_SIZE /\
        invariant c pq') \/
       (r = pdFAIL /\ pq' = pq /\
        (uxCount (mutex pq) = 0 \/ size pq = PQ_MAX_EVENT_SIZE))))).
Proof.
  intros Hinv Hfuel. split; [done|].
  destruct (decide (uxCount (mutex pq) = 0 /\ t = portMAX_DELAY)) as [[Hheld ->]|Hwait].
  - left. split_and!; try done.
    unfold xPriorityQueueSend. rewrite take_blocks by lia. done.
  - right.
    assert (Hm : 0 <= uxCount (mutex pq) <= 1) by (by destruct Hinv as (_ & _ & _ & [_ ?] & _)).
    destruct (send_returns c fuel pq event t) as (r & pq' & Hrun); [done|done| |].
    { destruct (decide (t = portMAX_DELAY)); [left|by right]. 
      destruct (decide (uxCount (mutex pq) = 0)); [tauto|lia]. }
    exists r, pq'. split; [done|].
    apply send_spec in Hrun; [|done].
    destruct Hrun as [(-> & -> & Hwhy)|(-> & ? & ? & ? & ? & ? & ? & ?)].
    + split_and!; try done; [intros; destruct Hwhy; lia|]. right. by split_and!.
    + split_and!; try done; try (intros; lia). left. by split_and!.
Qed.

Lemma send_returns_pdPASS_or_pdFAIL_witness :
  invariant part_001 (new_queue part_001 blank) /\
  pdPASS <> pdFAIL /\
  ((uxCount (mutex (new_queue part_001 blank)) = 0 /\ 0 = portMAX_DELAY /\
    xPriorityQueueSend part_001 10 (new_queue part_001 blank) high 0 = BlocksForever) \/
   (exists (r : BaseType_t) (pq' : pq_handle_t),
      xPriorityQueueSend part_001 10 (new_queue part_001 blank) high 0
        = Returns (r, pq') /\
      (uxCount (mutex (new_queue part_001 blank)) = 0 -> r = pdFAIL) /\
      (size (new_queue part_001 blank) = PQ_MAX_EVENT_SIZE -> r = pdFAIL) /\
      (uxCount (mutex (new_queue part_001 blank)) = 1 ->
       size (new_queue part_001 blank) < PQ_MAX_EVENT_SIZE -> r = pdPASS) /\
      ((r = pdPASS /\ uxCount (mutex (new_queue part_001 blank)) = 1 /\
        size (new_queue part_001 blank) < PQ_MAX_EVENT_SIZE /\
        size pq' = size (new_queue part_001 blank) + 1 /\
        occupied pq' ≡ₚ high :: occupied (new_queue part_001 blank) /\
        mutex pq' = mutex (new_queue part_001 blank) /\
        uxCount (eventSemaphore pq') =
          Z.min (uxCount (eventSemaphore (new_queue part_001 blank)) + 1)
                PQ_MAX_EVENT_SIZE /\
        invariant part_001 pq') \/
       (r = pdFAIL /\ pq' = new_queue part_001 blank /\
        (uxCount (mutex (new_queue part_001 blank)) = 0 \/
         size (new_queue part_001 blank) = PQ_MAX_EVENT_SIZE))))).
Proof.
  split; [apply invariant_new_queue|].
  apply (send_returns_pdPASS_or_pdFAIL part_001 10 (new_queue part_001 blank) high 0).
  - apply invariant_new_queue.
  - lia.
Defined.

(** ** C7: the size and the calls that passed *)

(** In [part_001] the size is the balance of the sends and the receives
    that passed, after every sequence of calls. *)
Theorem part_001_size_is_balance (fuel : nat) (block : nat -> pq_event_t)
  (ks : list call) (rs : list reply) (pq : pq_handle_t) :
  run part_001 fuel (new_queue part_001 block) ks = Returns (rs, pq) ->
  size pq = sends_passed rs - receives_passed rs /\
  0 <= size pq <= PQ_MAX_EVENT_SIZE.
Proof.
  intros Hrun.
  pose proof (run_invariant _ _ _ _ _ _ (invariant_new_queue part_001 block) Hrun)
    as (_ & Hc & _).
  apply run_part_001 in Hrun as [_ Hsz].
  - split; [|done]. rewrite Hsz. simpl. lia.
  - apply invariant_new_queue.
  - unfold signalled_within. simpl. lia.
Qed.

(** C7 says that the size is the number of sends that passed less the
    number of receives that passed.  In [app_src] a receive on the new
    queue passes and the size stays 0: the balance is -1. *)
Theorem app_src_receive_passes_on_new_queue :
  exists (rs : list reply) (pq : pq_handle_t),
    run app_src 10 (new_queue app_src blank) [CallReceive high 0] = Returns (rs, pq) /\
    rs = [ReceiveReply pdPASS high] /\
    size pq = 0 /\ sends_passed rs - receives_passed rs = -1.
Proof. do 2 eexists. split; [vm_compute; reflexivity|]. by split_and!. Qed.

(** ** C8: the failures of create *)

(** When the block or the mutex cannot be allocated, create returns NULL
    and nothing stays in use. *)
Theorem create_releases_on_early_failures (c : copy) (w : world) (k : kernel) :
  pvPortMalloc_ok w = false \/
  (pvPortMalloc_ok w = true /\ xSemaphoreCreateMutex_ok w = false) ->
  xPriorityQueueCreate c w k = (None, k).
Proof.
  unfold xPriorityQueueCreate, pvPortMalloc, create_semaphore, vPortFree.
  intros [->|[-> ->]]; [done|]. simpl. by destruct k.
Qed.

(** C8 says that a create which fails leaves nothing allocated, the mutex
    too when the counting semaphore cannot be created.  On that path both
    copies free the block of the queue and return NULL, and the mutex stays
    in use. *)
Theorem create_leaks_the_mutex (c : copy) (block : nat -> pq_event_t) (k : kernel) :
  xPriorityQueueCreate c (counting_fails block) k
    = (None, {| blocks_in_use := blocks_in_use k;
                semaphores_in_use := S (semaphores_in_use k) |}).
Proof. reflexivity. Qed.
(** ** C9: the accesses to the array *)

(** C9: when the size is within [0, PQ_MAX_EVENT_SIZE], no access of send,
    of receive or of the two heap repairs leaves the array: the outcome
    [OutOfBounds] is not reached.  The repairs started below the size do
    not reach it either when the array is cut down to its occupied prefix,
    hence they touch indices below the size only. *)
Theorem accesses_stay_in_bounds (c : copy) (fuel : nat) (pq : pq_handle_t) :
  well_sized pq -> in_capacity pq ->
  (forall (event : pq_event_t) (t : TickType_t),
     xPriorityQueueSend c fuel pq event t <> OutOfBounds) /\
  (forall (buffer : pq_event_t) (t : TickType_t),
     xPriorityQueueReceive c fuel pq buffer t <> OutOfBounds) /\
  (forall index : Z, 0 <= index < size pq ->
     _heapifyUp c fuel pq index <> OutOfBounds /\
     _heapifyDown c fuel pq index <> OutOfBounds /\
     _heapifyUp c fuel (cut_to_size pq) index <> OutOfBounds /\
     _heapifyDown c fuel (cut_to_size pq) index <> OutOfBounds).
Proof.
  intros Hw Hc. pose proof Hc as Hc'. unfold in_capacity, PQ_MAX_EVENT_SIZE in Hc'.
  assert (Hlen : array_length pq = 10) by (unfold array_length; rewrite Hw; done).
  assert (Hcut : array_length (cut_to_size pq) = size pq).
  { unfold array_length, cut_to_size, occupied. simpl. rewrite length_take.
    unfold array_length in Hlen. lia. }
  split_and!.
  - intros. apply send_no_fault; [done|lia].
  - intros. apply receive_no_fault. lia.
  - intros index Hi. split_and!.
    + apply heapifyUp_no_fault. lia.
    + apply heapifyDown_no_fault; lia.
    + apply heapifyUp_no_fault. rewrite Hcut. done.
    + apply heapifyDown_no_fault; [lia|]. rewrite Hcut. simpl. lia.
Qed.

Lemma accesses_stay_in_bounds_witness :
  well_sized three_events /\ in_capacity three_events /\
  (forall (event : pq_event_t) (t : TickType_t),
     xPriorityQueueSend part_001 10 three_events event t <> OutOfBounds) /\
  (forall (buffer : pq_event_t) (t : TickType_t),
     xPriorityQueueReceive part_001 10 three_events buffer t <> OutOfBounds) /\
  (forall index : Z, 0 <= index < size three_events ->
     _heapifyUp part_001 10 three_events index <> OutOfBounds /\
     _heapifyDown part_001 10 three_events index <> OutOfBounds /\
     _heapifyUp part_001 10 (cut_to_size three_events) index <> OutOfBounds /\
     _heapifyDown part_001 10 (cut_to_size three_events) index <> OutOfBounds).
Proof.
  split; [reflexivity|]. split; [vm_compute; intuition discriminate|].
  apply (accesses_stay_in_bounds part_001 10 three_events).
  - reflexivity.
  - vm_compute. intuition discriminate.
Defined.

(** Outside the invariant the checked accesses do fail: a size beyond the
    array makes the receive read [events[10]]. *)
Lemma receive_beyond_capacity_is_out_of_bounds :
  xPriorityQueueReceive part_001 10
      (with_eventSemaphore (with_size (new_queue part_001 blank) 11)
         (xSemaphoreCreateCounting 10 1))
      high 0
    = OutOfBounds.
Proof. vm_compute. reflexivity. Qed.

(** ** C10: the heap repairs terminate *)

(** C10: from every index of the occupied prefix both heap repairs return.
    The sift-up returns within [index + 1] calls: the parent index
    [(index - 1) / 2] is smaller than [index] from 1 on, and at the root it
    is [0] again, where the strict comparison of the root with itself is
    false.  The sift-down returns within [size - index + 1] calls: the index
    it goes on with is larger than [index] and below [size]. *)
Theorem heap_repairs_terminate (c : copy) (pq : pq_handle_t) (index : Z) (fuel : nat) :
  well_sized pq -> in_capacity pq -> 0 <= index < size pq ->
  ((Z.to_nat index < fuel)%nat ->
   exists pq', _heapifyUp c fuel pq index = Returns pq') /\
  ((Z.to_nat (size pq - index) < fuel)%nat ->
   exists pq', _heapifyDown c fuel pq index = Returns pq') /\
  (1 <= index -> 0 <= Z.quot (index - 1) 2 < index) /\
  Z.quot (0 - 1) 2 = 0 /\
  moves_up c (priority (cell pq 0)) (priority (cell pq 0)) = false /\
  (best_of c pq index <> index -> index < best_of c pq index < size pq).
Proof.
  intros Hw Hc Hi. pose proof Hc as Hc'. unfold in_capacity in Hc'.
  split_and!.
  - intros Hfuel. apply heapifyUp_returns; (done || lia).
  - intros Hfuel. apply heapifyDown_returns; (done || lia).
  - lia.
  - reflexivity.
  - apply moves_up_irrefl.
  - intros Hne.
    destruct (best_of_cases c pq index) as [[Hb _]|(Hb & _)]; [lia|done|done].
Qed.

Lemma heap_repairs_terminate_witness :
  well_sized three_events /\ in_capacity three_events /\
  0 <= 1 < size three_events /\
  (exists pq', _heapifyUp part_001 2 three_events 1 = Returns pq') /\
  (exists pq', _heapifyDown part_001 3 three_events 1 = Returns pq').
Proof.
  assert (Hw : well_sized three_events) by reflexivity.
  assert (Hc : in_capacity three_events) by (vm_compute; intuition discriminate).
  assert (Hi : 0 <= 1 < size three_events) by (simpl; lia).
  split; [exact Hw|]. split; [exact Hc|]. split; [exact Hi|].
  destruct (heap_repairs_terminate part_001 three_events 1 2 Hw Hc Hi)
    as (Hup & _).
  destruct (heap_repairs_terminate part_001 three_events 1 3 Hw Hc Hi)
    as (_ & Hdown & _).
  split; [apply Hup; simpl; lia|apply Hdown; simpl; lia].
Defined.

(** * Further properties of the queue *)

(** ** The sample states *)

(** The state [two_events] is reachable, and so the invariant holds. *)
Lemma reachable_two_events (c : copy) : reachable c (two_events c).
Proof. apply reachable_after. destruct c; do 2 eexists; vm_compute; reflexivity. Qed.

Lemma invariant_two_events (c : copy) : invariant c (two_events c).
Proof. apply reachable_invariant, reachable_two_events. Qed.

(** ** _swap *)

(** Exchanging two elements of a list twice gives the list back. *)
Lemma exchange_twice (l : list pq_event_t) (a b : nat) :
  (a < length l)%nat -> (b < length l)%nat ->
  <[b := <[b := l !!! a]> (<[a := l !!! b]> l) !!! a]>
    (<[a := <[b := l !!! a]> (<[a := l !!! b]> l) !!! b]>
       (<[b := l !!! a]> (<[a := l !!! b]> l))) = l.
Proof.
  intros Ha Hb. apply list_eq. intros i.
  rewrite !list_lookup_insert, !list_lookup_total_insert, !length_insert.
  repeat case_decide; try (exfalso; lia); destruct_and?; subst;
    try (symmetry; by apply list_lookup_lookup_total_lt); try done;
    exfalso; naive_solver lia.
Qed.

(** [_swap] on two indices of the array exchanges the two events and
    leaves every other element, the size and the two semaphores as they
    were; a second [_swap] on the same indices gives the queue back. *)
Theorem swap_exchanges (pq : pq_handle_t) (a b : Z) :
  well_sized pq -> 0 <= a < PQ_MAX_EVENT_SIZE -> 0 <= b < PQ_MAX_EVENT_SIZE ->
  exists pq' : pq_handle_t,
    _swap pq a b = Returns pq' /\
    cell pq' a = cell pq b /\ cell pq' b = cell pq a /\
    (forall k : Z, 0 <= k -> k <> a -> k <> b -> cell pq' k = cell pq k) /\
    size pq' = size pq /\ mutex pq' = mutex pq /\
    eventSemaphore pq' = eventSemaphore pq /\
    _swap pq' a b = Returns pq.
Proof.
  intros Hw Ha Hb. exists (exchanged pq a b).
  pose proof (well_sized_exchanged pq a b Hw) as Hw'.
  split_and!; try done.
  - by apply swap_exchanged.
  - rewrite cell_exchanged by (done || lia). repeat case_decide; by subst.
  - rewrite cell_exchanged by (done || lia). repeat case_decide; by subst.
  - intros k Hk Hka Hkb. rewrite cell_exchanged by (done || lia).
    repeat case_decide; by subst.
  - rewrite swap_exchanged by done. f_equal.
    assert (Hlen : length (events pq) = 10%nat) by exact Hw.
    unfold PQ_MAX_EVENT_SIZE in *.
    destruct pq as [ev sz m s]. unfold exchanged, with_events, cell. simpl. f_equal.
    apply exchange_twice; simpl in Hlen; lia.
Qed.

Lemma swap_exchanges_witness :
  well_sized three_events /\
  exists pq' : pq_handle_t,
    _swap three_events 0 1 = Returns pq' /\
    cell pq' 0 = cell three_events 1 /\ cell pq' 1 = cell three_events 0 /\
    (forall k : Z, 0 <= k -> k <> 0 -> k <> 1 -> cell pq' k = cell three_events k) /\
    size pq' = size three_events /\ mutex pq' = mutex three_events /\
    eventSemaphore pq' = eventSemaphore three_events /\
    _swap pq' 0 1 = Returns three_events.
Proof.
  split; [reflexivity|].
  apply (swap_exchanges three_events 0 1); [reflexivity|vm_compute..];
    intuition discriminate.
Defined.

(** ** _heapifyUp and _heapifyDown *)

(** When the order of the copy holds everywhere but between the element at
    [k] and its parent, the children of [k] being in order with that
    parent, [_heapifyUp] from [k] returns, with the order restored and the
    same events in the occupied part of the array: the maximum at the root
    in [part_001], the minimum in [app_src]. *)
Theorem heapifyUp_restores_order (c : copy) (fuel : nat) (pq : pq_handle_t) (k : Z) :
  well_sized pq -> in_capacity pq -> 0 <= k < size pq -> up_hole c pq k ->
  (Z.to_nat k < fuel)%nat ->
  exists pq' : pq_handle_t,
    _heapifyUp c fuel pq k = Returns pq' /\
    well_sized pq' /\ heap_order c pq' /\ same_but_order pq pq'.
Proof.
  intros Hw Hc Hk Hup Hfuel. pose proof Hc as Hc'. unfold in_capacity in Hc'.
  destruct (heapifyUp_returns c fuel pq k) as [pq' Hrun]; [done|lia|done|].
  exists pq'. split; [done|]. by eapply heapifyUp_heap.
Qed.

Lemma heapifyUp_restores_order_witness :
  up_hole part_001 three_events 1 /\
  exists pq' : pq_handle_t,
    _heapifyUp part_001 2 three_events 1 = Returns pq' /\
    well_sized pq' /\ heap_order part_001 pq' /\ same_but_order three_events pq'.
Proof.
  assert (Hup : up_hole part_001 three_events 1).
  { split.
    - intros ch Hch Hne. simpl in Hch. assert (ch = 2) as -> by lia.
      vm_compute. discriminate.
    - intros ch Hch Hpar. simpl in Hch. lia. }
  split; [exact Hup|].
  apply (heapifyUp_restores_order part_001 2 three_events 1).
  - reflexivity.
  - vm_compute. intuition discriminate.
  - simpl. lia.
  - exact Hup.
  - simpl. lia.
Defined.

(** When the order of the copy holds everywhere but between the element at
    [k] and its children, those children being in order with the parent of
    [k], [_heapifyDown] from [k] returns, with the order restored and the
    same events in the occupied part of the array. *)
Theorem heapifyDown_restores_order (c : copy) (fuel : nat) (pq : pq_handle_t) (k : Z) :
  well_sized pq -> in_capacity pq -> 0 <= k < size pq -> down_hole c pq k ->
  (Z.to_nat (size pq - k) < fuel)%nat ->
  exists pq' : pq_handle_t,
    _heapifyDown c fuel pq k = Returns pq' /\
    well_sized pq' /\ heap_order c pq' /\ same_but_order pq pq'.
Proof.
  intros Hw Hc Hk Hdown Hfuel.
  destruct (heapifyDown_returns c fuel pq k) as [pq' Hrun]; [done|done|lia|done|].
  exists pq'. split; [done|]. eapply heapifyDown_heap; [done|done| |done|done]. lia.
Qed.

Lemma heapifyDown_restores_order_witness :
  down_hole part_001 three_events 0 /\
  exists pq' : pq_handle_t,
    _heapifyDown part_001 4 three_events 0 = Returns pq' /\
    well_sized pq' /\ heap_order part_001 pq' /\ same_but_order three_events pq'.
Proof.
  assert (Hdown : down_hole part_001 three_events 0).
  { split.
    - intros ch Hch Hne. simpl in Hch. lia.
    - intros ch Hch Hpar ?. lia. }
  split; [exact Hdown|].
  apply (heapifyDown_restores_order part_001 4 three_events 0).
  - reflexivity.
  - vm_compute. intuition discriminate.
  - simpl. lia.
  - exact Hdown.
  - simpl. lia.
Defined.

(** On a queue that is in the order of its copy, [_heapifyUp] and
    [_heapifyDown] from any occupied index stop at their first comparison
    and return the queue as it was. *)
Theorem repairs_leave_a_heap_alone (c : copy) (fuel : nat) (pq : pq_handle_t) (k : Z) :
  well_sized pq -> in_capacity pq -> heap_order c pq -> 0 <= k < size pq ->
  _heapifyUp c (S fuel) pq k = Returns pq /\
  _heapifyDown c (S fuel) pq k = Returns pq.
Proof.
  intros Hw Hc Hheap Hk. pose proof Hc as Hc'. unfold in_capacity in Hc'. split.
  - rewrite heapifyUp_step by (done || lia).
    destruct (Z.ltb_spec (key_at c pq (Z.quot (k - 1) 2)) (key_at c pq k)) as [Hlt|];
      [|done].
    destruct (decide (k = 0)) as [->|Hne].
    + change (Z.quot (0 - 1) 2) with 0 in Hlt. lia.
    + pose proof (Hheap k ltac:(lia)). lia.
  - rewrite heapifyDown_step by (done || lia).
    destruct (best_of_cases c pq k) as [[-> _]|(Hb & Hpar & Hlt & _)]; [lia| |].
    + by rewrite Z.eqb_refl.
    + pose proof (Hheap (best_of c pq k) ltac:(lia)) as H. rewrite Hpar in H. lia.
Qed.

Lemma repairs_leave_a_heap_alone_witness :
  heap_order part_001 (two_events part_001) /\
  _heapifyUp part_001 1 (two_events part_001) 1 = Returns (two_events part_001) /\
  _heapifyDown part_001 1 (two_events part_001) 1 = Returns (two_events part_001).
Proof.
  destruct (invariant_two_events part_001) as (Hw & Hc & Hheap & _).
  split; [exact Hheap|].
  apply (repairs_leave_a_heap_alone part_001 0 (two_events part_001) 1 Hw Hc Hheap).
  simpl. lia.
Defined.

(** ** xPriorityQueueCreate *)

(** [xPriorityQueueCreate] returns a queue exactly when the three
    allocations succeed: the queue then is empty and in order, its mutex is
    free, and one block and two semaphores more are in use.  When an
    allocation fails it returns NULL and, whichever allocation it was, the
    block of the queue is not left in use. *)
Theorem create_returns_a_queue_or_NULL (c : copy) (w : world) (k : kernel) :
  (exists (pq : pq_handle_t) (k' : kernel),
     xPriorityQueueCreate c w k = (Some pq, k') /\
     pvPortMalloc_ok w = true /\ xSemaphoreCreateMutex_ok w = true /\
     xSemaphoreCreateCounting_ok w = true /\
     invariant c pq /\ size pq = 0 /\ uxCount (mutex pq) = 1 /\
     uxCount (eventSemaphore pq) = initial_count c /\
     blocks_in_use k' = S (blocks_in_use k) /\
     semaphores_in_use k' = S (S (semaphores_in_use k))) \/
  (exists k' : kernel,
     xPriorityQueueCreate c w k = (None, k') /\
     (pvPortMalloc_ok w = false \/ xSemaphoreCreateMutex_ok w = false \/
      xSemaphoreCreateCounting_ok w = false) /\
     blocks_in_use k' = blocks_in_use k).
Proof.
  destruct (pvPortMalloc_ok w) eqn:Hblock; [|right].
  - destruct (xSemaphoreCreateMutex_ok w) eqn:Hmutex; [|right].
    + destruct (xSemaphoreCreateCounting_ok w) eqn:Hcount; [left|right].
      * rewrite create_returns_new_queue by done. do 2 eexists.
        split; [reflexivity|]. split_and!; try done. apply invariant_new_queue.
      * unfold xPriorityQueueCreate, pvPortMalloc, create_semaphore, vPortFree.
        rewrite Hblock, Hmutex, Hcount. eexists. split; [reflexivity|]. by auto.
    + unfold xPriorityQueueCreate, pvPortMalloc, create_semaphore, vPortFree.
      rewrite Hblock, Hmutex. eexists. split; [reflexivity|]. by auto.
  - unfold xPriorityQueueCreate, pvPortMalloc. rewrite Hblock.
    eexists. split; [reflexivity|]. by auto.
Qed.

Lemma create_releases_on_early_failures_witness :
  pvPortMalloc_ok (mutex_fails blank) = true /\
  xSemaphoreCreateMutex_ok (mutex_fails blank) = false /\
  xPriorityQueueCreate part_001 (mutex_fails blank)
      {| blocks_in_use := 2; semaphores_in_use := 3 |}
    = (None, {| blocks_in_use := 2; semaphores_in_use := 3 |}).
Proof.
  split; [reflexivity|]. split; [reflexivity|].
  apply (create_releases_on_early_failures part_001 (mutex_fails blank)).
  right. split; reflexivity.
Defined.

(** ** xPriorityQueueSend and xPriorityQueueReceive *)

(** A send to a queue that has room and whose mutex is free returns
    [pdPASS], whatever the wait asked for: the event joins the occupied
    part of the array, the size grows by one, the count of the event
    semaphore grows by one up to its maximum, the mutex is free again and
    the invariant holds. *)
Theorem send_stores_the_event (c : copy) (fuel : nat) (pq : pq_handle_t)
  (event : pq_event_t) (t : TickType_t) :
  invariant c pq -> 0 < uxCount (mutex pq) -> size pq < PQ_MAX_EVENT_SIZE ->
  (10 <= fuel)%nat ->
  exists pq' : pq_handle_t,
    xPriorityQueueSend c fuel pq event t = Returns (pdPASS, pq') /\
    invariant c pq' /\ size pq' = size pq + 1 /\ mutex pq' = mutex pq /\
    uxCount (eventSemaphore pq') =
      Z.min (uxCount (eventSemaphore pq) + 1) PQ_MAX_EVENT_SIZE /\
    occupied pq' ≡ₚ event :: occupied pq.
Proof.
  intros Hinv Hfree Hroom Hfuel.
  destruct (send_returns c fuel pq event t) as (r & pq' & Hrun); [done|done|by left|].
  pose proof Hrun as Hspec. apply send_spec in Hspec; [|done].
  destruct Hspec as [(_ & _ & [?|?])|(-> & ? & _ & _ & ? & ? & ? & ?)]; [lia|lia|].
  by exists pq'.
Qed.

Lemma send_stores_the_event_witness :
  invariant part_001 (new_queue part_001 blank) /\
  exists pq' : pq_handle_t,
    xPriorityQueueSend part_001 10 (new_queue part_001 blank) high 0
      = Returns (pdPASS, pq') /\
    invariant part_001 pq' /\ size pq' = size (new_queue part_001 blank) + 1 /\
    mutex pq' = mutex (new_queue part_001 blank) /\
    uxCount (eventSemaphore pq') =
      Z.min (uxCount (eventSemaphore (new_queue part_001 blank)) + 1)
            PQ_MAX_EVENT_SIZE /\
    occupied pq' ≡ₚ high :: occupied (new_queue part_001 blank).
Proof.
  split; [apply invariant_new_queue|].
  apply (send_stores_the_event part_001 10 (new_queue part_001 blank) high 0).
  - apply invariant_new_queue.
  - simpl. lia.
  - simpl. unfold PQ_MAX_EVENT_SIZE. lia.
  - lia.
Defined.

(** A receive from a queue that holds an event, with a signal on the event
    semaphore and the mutex free, returns [pdPASS] with the event of the
    root, which no event of the queue precedes in the order of the copy:
    that event leaves the occupied part of the array, the size and the
    count of the event semaphore go down by one and the invariant holds. *)
Theorem receive_takes_the_root (c : copy) (fuel : nat) (pq : pq_handle_t)
  (buffer : pq_event_t) (t : TickType_t) :
  invariant c pq -> 0 < uxCount (eventSemaphore pq) -> 0 < uxCount (mutex pq) ->
  0 < size pq -> (10 <= fuel)%nat ->
  exists pq' : pq_handle_t,
    xPriorityQueueReceive c fuel pq buffer t = Returns (pdPASS, cell pq 0, pq') /\
    invariant c pq' /\ size pq' = size pq - 1 /\ mutex pq' = mutex pq /\
    eventSemaphore pq' = taken (eventSemaphore pq) /\
    cell pq 0 :: occupied pq' ≡ₚ occupied pq /\
    (forall x : pq_event_t, x ∈ occupied pq -> key c x <= key c (cell pq 0)).
Proof.
  intros Hinv Hsig Hfree Hpos Hfuel.
  destruct (receive_returns c fuel pq buffer t) as (r & e & pq' & Hrun);
    [done|done|by left|done|].
  pose proof Hrun as Hspec. apply receive_spec in Hspec; [|done].
  destruct Hspec
    as [(? & _)|[(_ & ? & _)|[(_ & _ & ? & _)|
        (_ & _ & _ & -> & -> & ? & ? & ? & ? & ?)]]]; try lia.
  exists pq'. split_and!; try done.
  intros x Hx. apply elem_of_occupied in Hx as (j & Hj & ->).
  destruct Hinv as (_ & _ & Hheap & _).
  apply (heap_order_root c pq Hheap j Hj).
Qed.

Lemma receive_takes_the_root_witness :
  invariant part_001 (two_events part_001) /\
  exists pq' : pq_handle_t,
    xPriorityQueueReceive part_001 10 (two_events part_001) low 0
      = Returns (pdPASS, cell (two_events part_001) 0, pq') /\
    invariant part_001 pq' /\ size pq' = size (two_events part_001) - 1 /\
    mutex pq' = mutex (two_events part_001) /\
    eventSemaphore pq' = taken (eventSemaphore (two_events part_001)) /\
    cell (two_events part_001) 0 :: occupied pq' ≡ₚ occupied (two_events part_001) /\
    (forall x : pq_event_t, x ∈ occupied (two_events part_001) ->
       key part_001 x <= key part_001 (cell (two_events part_001) 0)).
Proof.
  split; [apply invariant_two_events|].
  apply (receive_takes_the_root part_001 10 (two_events part_001) low 0).
  - apply invariant_two_events.
  - reflexivity.
  - reflexivity.
  - reflexivity.
  - lia.
Defined.

Lemma receive_finding_size_0_witness :
  xPriorityQueueReceive part_001 10
      (with_eventSemaphore (new_queue part_001 blank) (xSemaphoreCreateCounting 10 1))
      high 5
    = Returns (pdPASS, high,
               with_eventSemaphore
                 (with_eventSemaphore (new_queue part_001 blank)
                    (xSemaphoreCreateCounting 10 1))
                 (taken (eventSemaphore
                           (with_eventSemaphore (new_queue part_001 blank)
                              (xSemaphoreCreateCounting 10 1))))).
Proof.
  apply (receive_finding_size_0 part_001 10
           (with_eventSemaphore (new_queue part_001 blank)
              (xSemaphoreCreateCounting 10 1)) high 5).
  - vm_compute. intuition discriminate.
  - reflexivity.
  - reflexivity.
  - reflexivity.
Defined.

(** A send with a bounded wait on a mutex that is held fails and leaves the
    queue as it was. *)
Lemma send_expires_on_busy_mutex (c : copy) (fuel : nat) (pq : pq_handle_t)
  (event : pq_event_t) (t : TickType_t) :
  uxCount (mutex pq) <= 0 -> t <> portMAX_DELAY ->
  xPriorityQueueSend c fuel pq event t = Returns (pdFAIL, pq).
Proof.
  intros Hbusy Ht. unfold xPriorityQueueSend. by rewrite take_expires.
Qed.

(** A receive with a bounded wait and no signal on the event semaphore
    fails and leaves the queue and the buffer as they were. *)
Lemma receive_expires_without_signal (c : copy) (fuel : nat) (pq : pq_handle_t)
  (buffer : pq_event_t) (t : TickType_t) :
  uxCount (eventSemaphore pq) <= 0 -> t <> portMAX_DELAY ->
  xPriorityQueueReceive c fuel pq buffer t = Returns (pdFAIL, buffer, pq).
Proof.
  intros Hnone Ht. unfold xPriorityQueueReceive. by rewrite take_expires.
Qed.

(** With a bounded wait, a send that finds the mutex held and a receive
    that finds no signal on the event semaphore return [pdFAIL] and change
    nothing: the queue and the buffer of the receive are as before. *)
Theorem expired_waits_change_nothing (c : copy) (fuel : nat) (pq : pq_handle_t)
  (e : pq_event_t) (t : TickType_t) :
  t <> portMAX_DELAY ->
  (uxCount (mutex pq) <= 0 ->
   xPriorityQueueSend c fuel pq e t = Returns (pdFAIL, pq)) /\
  (uxCount (eventSemaphore pq) <= 0 ->
   xPriorityQueueReceive c fuel pq e t = Returns (pdFAIL, e, pq)).
Proof.
  intros Ht. split; intros H.
  - by apply send_expires_on_busy_mutex.
  - by apply receive_expires_without_signal.
Qed.

Lemma expired_waits_change_nothing_witness :
  uxCount (mutex (busy_queue part_001)) <= 0 /\
  uxCount (eventSemaphore (busy_queue part_001)) <= 0 /\
  xPriorityQueueSend part_001 10 (busy_queue part_001) high 5
    = Returns (pdFAIL, busy_queue part_001) /\
  xPriorityQueueReceive part_001 10 (busy_queue part_001) high 5
    = Returns (pdFAIL, high, busy_queue part_001).
Proof.
  assert (Hm : uxCount (mutex (busy_queue part_001)) <= 0) by (vm_compute; discriminate).
  assert (Hs : uxCount (eventSemaphore (busy_queue part_001)) <= 0)
    by (vm_compute; discriminate).
  split; [exact Hm|]. split; [exact Hs|].
  destruct (expired_waits_change_nothing part_001 10 (busy_queue part_001) high 5)
    as [Hsend Hrecv]; [vm_compute; discriminate|].
  split; [exact (Hsend Hm)|exact (Hrecv Hs)].
Defined.

(** In [part_001] a receive that takes the last signal of the event
    semaphore and then finds the mutex held returns [pdFAIL] without giving
    the signal back: the events and the size are as before and the count is
    0, so that, also once the mutex is free again, the next receive with a
    bounded wait fails, although the events are still in the queue. *)
Theorem part_001_busy_mutex_strands_event (fuel : nat) (pq : pq_handle_t)
  (b1 b2 : pq_event_t) (t1 t2 : TickType_t) :
  uxCount (eventSemaphore pq) = 1 -> uxCount (mutex pq) <= 0 ->
  t2 <> portMAX_DELAY ->
  exists pq1 : pq_handle_t,
    xPriorityQueueReceive part_001 fuel pq b1 t1 = Returns (pdFAIL, b1, pq1) /\
    events pq1 = events pq /\ size pq1 = size pq /\
    uxCount (eventSemaphore pq1) = 0 /\
    forall m : SemaphoreHandle_t,
      xPriorityQueueReceive part_001 fuel (with_mutex pq1 m) b2 t2
        = Returns (pdFAIL, b2, with_mutex pq1 m).
Proof.
  intros Hsig Hbusy Ht.
  exists (with_eventSemaphore pq (taken (eventSemaphore pq))).
  split_and!; try done.
  - unfold xPriorityQueueReceive. rewrite take_available by lia. simpl.
    by rewrite take_expires.
  - simpl. lia.
  - intros m. apply receive_expires_without_signal; [simpl; lia|done].
Qed.

Lemma part_001_busy_mutex_strands_event_witness :
  uxCount (eventSemaphore one_event_busy) = 1 /\
  uxCount (mutex one_event_busy) <= 0 /\ size one_event_busy = 1 /\
  exists pq1 : pq_handle_t,
    xPriorityQueueReceive part_001 10 one_event_busy high 0
      = Returns (pdFAIL, high, pq1) /\
    events pq1 = events one_event_busy /\ size pq1 = size one_event_busy /\
    uxCount (eventSemaphore pq1) = 0 /\
    forall m : SemaphoreHandle_t,
      xPriorityQueueReceive part_001 10 (with_mutex pq1 m) medium 0
        = Returns (pdFAIL, medium, with_mutex pq1 m).
Proof.
  split; [reflexivity|]. split; [vm_compute; discriminate|]. split; [reflexivity|].
  apply (part_001_busy_mutex_strands_event 10 one_event_busy high medium 0 0).
  - reflexivity.
  - vm_compute. discriminate.
  - vm_compute. discriminate.
Defined.

(** ** Sequences of calls *)

(** In every state that sends, receives and the moves of other tasks at the
    mutex reach from a new queue, the array has its [PQ_MAX_EVENT_SIZE]
    elements, the size is between 0 and [PQ_MAX_EVENT_SIZE], the count of
    the mutex is 0 or 1 and the count of the event semaphore is between 0
    and [PQ_MAX_EVENT_SIZE]. *)
Theorem reachable_keeps_bounds (c : copy) (pq : pq_handle_t) :
  reachable c pq ->
  well_sized pq /\ in_capacity pq /\
  is_mutex (mutex pq) /\ is_event_semaphore (eventSemaphore pq).
Proof. intros H. apply reachable_invariant in H as (? & ? & _ & ? & ?). done. Qed.

Lemma reachable_keeps_bounds_witness :
  reachable app_src (full_queue app_src) /\
  well_sized (full_queue app_src) /\ in_capacity (full_queue app_src) /\
  is_mutex (mutex (full_queue app_src)) /\
  is_event_semaphore (eventSemaphore (full_queue app_src)).
Proof.
  split; [apply reachable_full_queue|].
  apply (reachable_keeps_bounds app_src (full_queue app_src)).
  apply reachable_full_queue.
Defined.

(** In [app_src] every reachable state is a min-heap: no occupied element
    has a priority below that of its parent, and the root holds the lowest
    priority of the queue. *)
Theorem app_src_keeps_min_heap (pq : pq_handle_t) :
  reachable app_src pq -> min_heap pq /\ root_is_min pq.
Proof.
  intros H. apply reachable_invariant in H as (_ & _ & Hheap & _). split.
  - intros i child Hi Hchild Hlt.
    assert (Hpar : Z.quot (child - 1) 2 = i) by lia.
    pose proof (Hheap child ltac:(lia)) as H. rewrite Hpar in H.
    unfold key_at, key in H. unfold priority_at. lia.
  - intros j Hj. pose proof (heap_order_root _ _ Hheap j Hj) as H.
    unfold key_at, key in H. unfold priority_at. lia.
Qed.

Lemma app_src_keeps_min_heap_witness :
  reachable app_src (two_events app_src) /\
  min_heap (two_events app_src) /\ root_is_min (two_events app_src).
Proof.
  split; [apply reachable_two_events|].
  apply (app_src_keeps_min_heap (two_events app_src)). apply reachable_two_events.
Defined.

Lemma part_001_keeps_max_heap_witness :
  reachable part_001 (two_events part_001) /\
  max_heap (two_events part_001) /\ root_is_max (two_events part_001).
Proof.
  split; [apply reachable_two_events|].
  apply (part_001_keeps_max_heap (two_events part_001)). apply reachable_two_events.
Defined.

Lemma app_src_receives_non_decreasing_witness :
  exists (out : list pq_event_t) (pq : pq_handle_t),
    run app_src 10 (new_queue app_src blank)
        (map send_call [(low, 0); (high, 0); (medium, 0)]
         ++ map receive_call [(low, 0); (low, 0); (low, 0)])
      = Returns (map (fun _ => SendReply pdPASS) [(low, 0); (high, 0); (medium, 0)]
                 ++ map (ReceiveReply pdPASS) out, pq) /\
    out ≡ₚ [(low, 0); (high, 0); (medium, 0)].*1 /\
    Sorted Z.le (map (fun e => enum_value (priority e)) out).
Proof.
  apply (app_src_receives_non_decreasing 10 blank
           [(low, 0); (high, 0); (medium, 0)] [(low, 0); (low, 0); (low, 0)]).
  - lia.
  - simpl. lia.
  - reflexivity.
Defined.

Lemma part_001_receives_non_increasing_witness :
  exists (out : list pq_event_t) (pq : pq_handle_t),
    run part_001 10 (new_queue part_001 blank)
        (map send_call [(low, 0); (high, 0); (medium, 0)]
         ++ map receive_call [(low, 0); (low, 0); (low, 0)])
      = Returns (map (fun _ => SendReply pdPASS) [(low, 0); (high, 0); (medium, 0)]
                 ++ map (ReceiveReply pdPASS) out, pq) /\
    out ≡ₚ [(low, 0); (high, 0); (medium, 0)].*1 /\
    Sorted Z.ge (map (fun e => enum_value (priority e)) out).
Proof.
  apply (part_001_receives_non_increasing 10 blank
           [(low, 0); (high, 0); (medium, 0)] [(low, 0); (low, 0); (low, 0)]).
  - lia.
  - simpl. lia.
  - reflexivity.
Defined.

Lemma part_001_size_is_balance_witness :
  run part_001 10 (new_queue part_001 blank) contended
    = Returns ([SendReply pdPASS; NoReply; ReceiveReply pdFAIL high; SendReply pdFAIL],
               after part_001 contended) /\
  size (after part_001 contended)
    = sends_passed [SendReply pdPASS; NoReply; ReceiveReply pdFAIL high; SendReply pdFAIL]
      - receives_passed
          [SendReply pdPASS; NoReply; ReceiveReply pdFAIL high; SendReply pdFAIL] /\
  0 <= size (after part_001 contended) <= PQ_MAX_EVENT_SIZE.
Proof.
  assert (Hrun : run part_001 10 (new_queue part_001 blank) contended
                 = Returns ([SendReply pdPASS; NoReply; ReceiveReply pdFAIL high;
                             SendReply pdFAIL], after part_001 contended))
    by (vm_compute; reflexivity).
  split; [exact Hrun|].
  exact (part_001_size_is_balance 10 blank contended _ _ Hrun).
Defined.

(** A send or a receive leaves the mutex as it found it. *)
Lemma own_step_keeps_mutex (c : copy) (fuel : nat) (pq : pq_handle_t) (k : call)
  (r : reply) (pq' : pq_handle_t) :
  invariant c pq -> own_call k = true ->
  step c fuel pq k = Returns (r, pq') -> mutex pq' = mutex pq.
Proof.
  intros Hinv Hown. destruct k as [event t|buffer t| |]; try done; simpl.
  - intros Hrun. apply bind_returns in Hrun as ([r1 pq1] & Hrun & [= <- <-]).
    apply send_spec in Hrun; [|done].
    by destruct Hrun as [(_ & -> & _)|(_ & _ & _ & _ & _ & ? & _)].
  - intros Hrun. apply bind_returns in Hrun as ([[r1 e1] pq1] & Hrun & [= <- <-]).
    apply receive_spec in Hrun; [|done].
    by destruct Hrun
      as [(_ & _ & _ & ->)|[(_ & _ & _ & _ & _ & ->)|[(_ & _ & _ & _ & _ & ->)|
          (_ & _ & _ & _ & _ & _ & _ & ? & _)]]].
Qed.

(** In [part_001] a send or a receive that finds the mutex free keeps the
    count of the event semaphore equal to the size. *)
Lemma own_step_part_001 (fuel : nat) (pq : pq_handle_t) (k : call)
  (r : reply) (pq' : pq_handle_t) :
  invariant part_001 pq -> own_call k = true -> uxCount (mutex pq) = 1 ->
  uxCount (eventSemaphore pq) = size pq ->
  step part_001 fuel pq k = Returns (r, pq') ->
  uxCount (eventSemaphore pq') = size pq'.
Proof.
  intros Hinv Hown Hfree Hcount. destruct k as [event t|buffer t| |]; try done; simpl.
  - intros Hrun. apply bind_returns in Hrun as ([r1 pq1] & Hrun & [= <- <-]).
    apply send_spec in Hrun; [|done].
    destruct Hrun as [(_ & -> & _)|(_ & _ & _ & ? & Hs & _ & Hc & _)]; [done|].
    rewrite Hc, Hs. lia.
  - intros Hrun. apply bind_returns in Hrun as ([[r1 e1] pq1] & Hrun & [= <- <-]).
    apply receive_spec in Hrun; [|done].
    destruct Hrun
      as [(_ & _ & _ & ->)|[(_ & ? & _)|[(? & _ & ? & _)|
          (_ & _ & _ & _ & _ & _ & Hs & _ & He & _)]]]; try (done || lia).
    rewrite He, Hs. simpl. lia.
Qed.

(** In [part_001], as long as no other task holds the mutex, the count of
    the event semaphore is the size of the queue after every sequence of
    sends and receives, and the mutex is free between the calls. *)
Theorem part_001_count_is_size (fuel : nat) (block : nat -> pq_event_t)
  (ks : list call) (rs : list reply) (pq : pq_handle_t) :
  forallb own_call ks = true ->
  run part_001 fuel (new_queue part_001 block) ks = Returns (rs, pq) ->
  uxCount (eventSemaphore pq) = size pq /\ uxCount (mutex pq) = 1.
Proof.
  assert (H : forall ks pq0 rs pq,
             invariant part_001 pq0 -> uxCount (mutex pq0) = 1 ->
             uxCount (eventSemaphore pq0) = size pq0 ->
             forallb own_call ks = true ->
             run part_001 fuel pq0 ks = Returns (rs, pq) ->
             uxCount (eventSemaphore pq) = size pq /\ uxCount (mutex pq) = 1).
  { clear. induction ks as [|k ks IH]; intros pq0 rs pq Hinv Hfree Hcount Hown; simpl.
    - by intros [= <- <-].
    - simpl in Hown. apply andb_prop in Hown as [Hk Hks].
      intros Hrun. apply bind_returns in Hrun as ([r1 pq1] & Hstep & Hrun).
      apply bind_returns in Hrun as ([rs2 pq2] & Hrun & [= <- <-]).
      eapply IH; [| | |done|done].
      + by eapply step_invariant.
      + by rewrite (own_step_keeps_mutex _ _ _ _ _ _ Hinv Hk Hstep).
      + by eapply own_step_part_001. }
  intros Hown Hrun.
  eapply H; [apply invariant_new_queue|done|done|done|done].
Qed.

Lemma part_001_count_is_size_witness :
  forallb own_call three_own_calls = true /\
  run part_001 10 (new_queue part_001 blank) three_own_calls
    = Returns ([SendReply pdPASS; SendReply pdPASS; ReceiveReply pdPASS high],
               after part_001 three_own_calls) /\
  uxCount (eventSemaphore (after part_001 three_own_calls))
    = size (after part_001 three_own_calls) /\
  uxCount (mutex (after part_001 three_own_calls)) = 1.
Proof.
  assert (Hrun : run part_001 10 (new_queue part_001 blank) three_own_calls
                 = Returns ([SendReply pdPASS; SendReply pdPASS;
                             ReceiveReply pdPASS high],
                            after part_001 three_own_calls))
    by (vm_compute; reflexivity).
  split; [reflexivity|]. split; [exact Hrun|].
  exact (part_001_count_is_size 10 blank three_own_calls _ _ eq_refl Hrun).
Defined.

(** A send or a receive with a bounded wait on a free mutex returns. *)
Lemma own_step_returns (c : copy) (fuel : nat) (pq : pq_handle_t) (k : call) :
  invariant c pq -> (10 <= fuel)%nat -> uxCount (mutex pq) = 1 ->
  own_call k = true -> bounded_wait k = true ->
  exists r pq', step c fuel pq k = Returns (r, pq').
Proof.
  intros Hinv Hfuel Hfree Hown Hwait.
  destruct k as [event t|buffer t| |]; try done; simpl in *.
  - destruct (send_returns c fuel pq event t) as (r & pq' & ->);
      [done|done|lia|]. simpl. by eauto.
  - destruct (Z.eqb_spec t portMAX_DELAY); [done|].
    destruct (receive_returns c fuel pq buffer t) as (r & e & pq' & ->);
      [done|done|by right|intros; lia|]. simpl. by eauto.
Qed.

(** Every sequence of sends and receives with bounded waits on a new queue
    runs to its end, in both copies: no call blocks, runs out of fuel or
    leaves the array. *)
Theorem own_calls_return (c : copy) (fuel : nat) (block : nat -> pq_event_t)
  (ks : list call) :
  (10 <= fuel)%nat -> forallb own_call ks = true -> forallb bounded_wait ks = true ->
  exists (rs : list reply) (pq : pq_handle_t),
    run c fuel (new_queue c block) ks = Returns (rs, pq).
Proof.
  intros Hfuel.
  assert (H : forall l pq0,
             invariant c pq0 -> uxCount (mutex pq0) = 1 ->
             forallb own_call l = true -> forallb bounded_wait l = true ->
             exists rs pq, run c fuel pq0 l = Returns (rs, pq)).
  { intros l. induction l as [|k l IH]; intros pq0 Hinv Hfree Hown Hwait; simpl.
    - by eauto.
    - simpl in Hown, Hwait.
      apply andb_prop in Hown as [Hk Hks]. apply andb_prop in Hwait as [Hw Hws].
      destruct (own_step_returns c fuel pq0 k) as (r & pq1 & Hstep); [done..|].
      rewrite Hstep. simpl.
      destruct (IH pq1) as (rs & pq & ->); [| |done|done|simpl; by eauto].
      + by eapply step_invariant.
      + by rewrite (own_step_keeps_mutex _ _ _ _ _ _ Hinv Hk Hstep). }
  intros Hown Hwait. apply H; [apply invariant_new_queue|done|done|done].
Qed.

Lemma own_calls_return_witness :
  forallb own_call three_own_calls = true /\
  forallb bounded_wait three_own_calls = true /\
  exists (rs : list reply) (pq : pq_handle_t),
    run app_src 10 (new_queue app_src blank) three_own_calls = Returns (rs, pq).
Proof.
  split; [reflexivity|]. split; [reflexivity|].
  apply (own_calls_return app_src 10 blank three_own_calls); [lia|reflexivity..].
Defined.

(** * The active objects *)

(** ** ao_led_send *)

(** [ao_led_send] always returns, since it sends with a wait of 0 ticks.
    It returns [true] when the event is stored, and [false], with the
    queue as it was, when the mutex is held or the queue is full. *)
Theorem ao_led_send_never_blocks (c : copy) (fuel : nat) (hpq : pq_handle_t)
  (evt : pq_event_t) :
  invariant c hpq -> (10 <= fuel)%nat ->
  exists (b : bool) (hpq' : pq_handle_t),
    ao_led_send c fuel hpq evt = Returns (b, hpq') /\
    if b then
      invariant c hpq' /\ size hpq' = size hpq + 1 /\ mutex hpq' = mutex hpq /\
      uxCount (eventSemaphore hpq') =
        Z.min (uxCount (eventSemaphore hpq) + 1) PQ_MAX_EVENT_SIZE /\
      occupied hpq' ≡ₚ evt :: occupied hpq
    else
      hpq' = hpq /\ (uxCount (mutex hpq) = 0 \/ size hpq = PQ_MAX_EVENT_SIZE).
Proof.
  intros Hinv Hfuel. unfold ao_led_send.
  destruct (send_returns c fuel hpq evt 0) as (r & hpq' & Hrun); [done|done|by right|].
  rewrite Hrun. simpl. exists (pdPASS =? r), hpq'. split; [done|].
  apply send_spec in Hrun; [|done].
  destruct Hrun as [(-> & -> & ?)|(-> & ? & _ & _ & ? & ? & ? & ?)]; simpl; done.
Qed.

Lemma ao_led_send_never_blocks_witness :
  invariant part_001 (full_queue part_001) /\
  exists (b : bool) (hpq' : pq_handle_t),
    ao_led_send part_001 10 (full_queue part_001) high = Returns (b, hpq') /\
    if b then
      invariant part_001 hpq' /\ size hpq' = size (full_queue part_001) + 1 /\
      mutex hpq' = mutex (full_queue part_001) /\
      uxCount (eventSemaphore hpq') =
        Z.min (uxCount (eventSemaphore (full_queue part_001)) + 1) PQ_MAX_EVENT_SIZE /\
      occupied hpq' ≡ₚ high :: occupied (full_queue part_001)
    else
      hpq' = full_queue part_001 /\
      (uxCount (mutex (full_queue part_001)) = 0 \/
       size (full_queue part_001) = PQ_MAX_EVENT_SIZE).
Proof.
  assert (Hinv : invariant part_001 (full_queue part_001))
    by apply reachable_invariant, reachable_full_queue.
  split; [exact Hinv|].
  apply (ao_led_send_never_blocks part_001 10 (full_queue part_001) high Hinv). lia.
Defined.

(** [ao_led_send] to a queue with room and a free mutex. *)
Lemma ao_led_send_stores (c : copy) (fuel : nat) (hpq : pq_handle_t) (e : pq_event_t) :
  invariant c hpq -> (10 <= fuel)%nat -> uxCount (mutex hpq) = 1 ->
  size hpq + 1 <= PQ_MAX_EVENT_SIZE ->
  exists hpq', ao_led_send c fuel hpq e = Returns (true, hpq') /\
    invariant c hpq' /\ uxCount (mutex hpq') = 1 /\
    size hpq' = size hpq + 1 /\
    uxCount (eventSemaphore hpq') =
      Z.min (uxCount (eventSemaphore hpq) + 1) PQ_MAX_EVENT_SIZE /\
    occupied hpq' ≡ₚ e :: occupied hpq.
Proof.
  intros Hinv Hfuel Hfree He. unfold ao_led_send.
  destruct (send_returns c fuel hpq e 0) as (r & hpq' & Hrun); [done|done|by right|].
  rewrite Hrun. apply send_spec in Hrun; [|done].
  destruct Hrun as [(_ & _ & [?|?])|(-> & ? & _ & _ & ? & Hm & ? & ?)]; [lia|lia|].
  exists hpq'. split_and!; try done. by rewrite Hm.
Qed.

(** ** The task of ao_led.c *)

(** Sequencing after a call that returns. *)
Lemma bind_Returns {A B : Type} (a : A) (k : A -> outcome B) : Returns a ≫= k = k a.
Proof. reflexivity. Qed.

(** On a buffer that holds an event, [xPriorityQueueReceive_into] is
    [xPriorityQueueReceive]. *)
Lemma receive_into_event (c : copy) (fuel : nat) (pq : pq_handle_t)
  (event : pq_event_t) (t : TickType_t) :
  xPriorityQueueReceive_into c fuel pq event (fun e => e) t
    = xPriorityQueueReceive c fuel pq event t.
Proof. destruct c; reflexivity. Qed.

(** [dequeue_into] writes the buffer exactly when [dequeue] does, which is
    when it finds an event. *)
Lemma dequeue_into_as_dequeue {B : Type} (c : copy) (fuel : nat) (pq : pq_handle_t)
  (l : B) (write : pq_event_t -> B) (b : pq_event_t) :
  dequeue_into c fuel pq l write =
    '(e, pq') ← dequeue c fuel pq b;
    Returns (if 0 <? size pq then write e else l, pq').
Proof.
  unfold dequeue_into, dequeue. destruct (0 <? size pq); [|done].
  destruct (load pq 0) as [first| | |]; try done. simpl.
  destruct (load pq (size pq - 1)) as [last| | |]; try done. simpl.
  destruct (store pq 0 last) as [pq1| | |]; try done. simpl.
  by destruct (_heapifyDown c fuel (with_size pq1 (size pq1 - 1)) 0).
Qed.

(** [xPriorityQueueReceive_into] does to the queue what
    [xPriorityQueueReceive] does and returns the same value; it writes the
    buffer when that value is [pdPASS] and the queue held an event, and
    leaves it as it was otherwise. *)
Lemma receive_into_as_receive {B : Type} (c : copy) (fuel : nat) (pq : pq_handle_t)
  (l : B) (write : pq_event_t -> B) (b : pq_event_t) (t : TickType_t) :
  xPriorityQueueReceive_into c fuel pq l write t =
    '(r, e, pq') ← xPriorityQueueReceive c fuel pq b t;
    Returns (r, if (pdPASS =? r) && (0 <? size pq) then write e else l, pq').
Proof.
  unfold xPriorityQueueReceive_into, xPriorityQueueReceive.
  destruct (xSemaphoreTake (eventSemaphore pq) t) as [[signalled s]| | |]; try done.
  rewrite !bind_Returns. cbv beta match zeta.
  destruct (signalled =? pdTRUE); [|done].
  change (mutex (with_eventSemaphore pq s)) with (mutex pq).
  destruct c.
  - destruct (xSemaphoreTake (mutex pq) portMAX_DELAY) as [[taken m]| | |]; try done.
    rewrite !bind_Returns. cbv beta match zeta.
    rewrite (dequeue_into_as_dequeue _ _ _ _ _ b).
    by destruct (dequeue app_src fuel _ b) as [[e pq1]| | |].
  - destruct (xSemaphoreTake (mutex pq) 10) as [[taken m]| | |]; try done.
    rewrite !bind_Returns. cbv beta match zeta.
    destruct (taken =? pdTRUE); [|done].
    rewrite (dequeue_into_as_dequeue _ _ _ _ _ b).
    by destruct (dequeue part_001 fuel _ b) as [[e pq1]| | |].
Qed.

(** The value of every enumerator of [pq_priority_t] is an index of
    [info]. *)
Lemma info_at_enum_value (spare : nat) (p : pq_priority_t) :
  info_at spare (enum_value p) = Returns (enum_value p).
Proof.
  unfold info_at, info_length.
  destruct (Z.leb_spec 0 (enum_value p)); [|destruct p; simpl in *; lia].
  destruct (Z.ltb_spec (enum_value p) (3 + Z.of_nat spare)); [done|].
  destruct p; simpl in *; lia.
Qed.

(** The discipline of the pins along two lists of effects. *)
Lemma led_discipline_app (on : option Z) (a b : list effect) :
  led_discipline on (a ++ b) = led_discipline on a ≫= fun on' => led_discipline on' b.
Proof.
  revert on. induction a as [|e a IH]; intros on; simpl; [done|].
  destruct e as [| | |i [|]|]; try apply IH.
  - destruct on as [j|]; [|done]. destruct (i =? j); [apply IH|done].
  - destruct on; [done|apply IH].
Qed.

(** One turn of the inner loop sets a pin and resets it. *)
Lemma led_discipline_on_and_off (tick : Z) (index : Z) :
  led_discipline None (led_on_and_off_at tick index) = Some None.
Proof. unfold led_on_and_off_at. simpl. by rewrite Z.eqb_refl. Qed.

(** One turn of the loops of the LED task. *)
Lemma ao_led_loop_S (c : copy) (fuel : nat) (tick : Z) (spare : nat)
  (junk : nat -> Z) (n : nat) (evt : evt_t) (hpq : pq_handle_t) :
  ao_led_loop c fuel tick spare junk (S n) evt hpq =
    '(r, evt, hpq) ← xPriorityQueueReceive_into c fuel hpq evt received portMAX_DELAY;
    if pdPASS =? r then
      index ← info_at spare (evt_priority evt);
      '(effects, evt', hpq) ← ao_led_loop c fuel tick spare junk n evt hpq;
      Returns (led_on_and_off_at tick index ++ effects, evt', hpq)
    else
      '(effects, evt', hpq) ←
        ao_led_loop c fuel tick spare junk n (indeterminate (junk n)) hpq;
      Returns (led_waiting :: effects, evt', hpq).
Proof. reflexivity. Qed.

(** The loops of the LED task follow the discipline of the pins. *)
Lemma ao_led_loop_discipline (c : copy) (fuel : nat) (tick : Z) (spare : nat)
  (junk : nat -> Z) (n : nat) :
  forall (evt : evt_t) (hpq : pq_handle_t) (effects : list effect)
         (evt' : evt_t) (hpq' : pq_handle_t),
    ao_led_loop c fuel tick spare junk n evt hpq = Returns (effects, evt', hpq') ->
    led_discipline None effects = Some None.
Proof.
  induction n as [|n IH]; intros evt hpq effects evt' hpq'.
  - by intros [= <- _ _].
  - rewrite ao_led_loop_S.
    intros Hrun. apply bind_returns in Hrun as ([[r e1] hpq1] & _ & Hrun).
    destruct (pdPASS =? r).
    + apply bind_returns in Hrun as (index & _ & Hrun).
      apply bind_returns in Hrun as ([[eff e2] hpq2] & Hloop & [= <- _ _]).
      change (led_discipline None (led_on_and_off_at tick index ++ eff) = Some None).
      rewrite led_discipline_app, led_discipline_on_and_off. simpl. by eapply IH.
    + apply bind_returns in Hrun as ([[eff e2] hpq2] & Hloop & [= <- _ _]).
      simpl. by eapply IH.
Qed.

(** However long the LED task is observed, in whatever state the queue is
    and whatever its local holds when it is declared, it sets a pin only
    while no pin is on and resets the pin it set: no two LEDs are on
    together, and none stays on. *)
Theorem ao_led_task_one_led_at_a_time (c : copy) (fuel : nat) (tick : Z)
  (spare : nat) (junk : nat -> Z) (n : nat) (hpq : pq_handle_t)
  (effects : list effect) (evt' : evt_t) (hpq' : pq_handle_t) :
  ao_led_ao_task_ c fuel tick spare junk n hpq = Returns (effects, evt', hpq') ->
  led_discipline None effects = Some None.
Proof.
  unfold ao_led_ao_task_. intros Hrun.
  apply bind_returns in Hrun as ([[eff e2] hpq2] & Hloop & [= <- _ _]).
  simpl. by eapply ao_led_loop_discipline.
Qed.

Lemma ao_led_task_one_led_at_a_time_witness :
  exists (effects : list effect) (evt' : evt_t) (hpq' : pq_handle_t),
    ao_led_ao_task_ part_001 10 1 0 sample_junk 2 (two_events part_001)
      = Returns (effects, evt', hpq') /\
    led_discipline None effects = Some None.
Proof.
  eexists _, _, _.
  assert (Hrun : ao_led_ao_task_ part_001 10 1 0 sample_junk 2 (two_events part_001)
                 = Returns (led_started :: led_waiting
                            :: led_on_and_off 1 high ++ led_on_and_off 1 low,
                            received low,
                            after part_001
                              [CallSend low 0; CallSend high 0;
                               CallReceive low 0; CallReceive low 0]))
    by (vm_compute; reflexivity).
  split; [exact Hrun|].
  exact (ao_led_task_one_led_at_a_time part_001 10 1 0 sample_junk 2
           (two_events part_001) _ _ _ Hrun).
Defined.

(** The loops of the LED task on a queue with a signal for each event. *)
Lemma ao_led_loop_drains (c : copy) (fuel : nat) (tick : Z) (spare : nat)
  (junk : nat -> Z) (n : nat) :
  forall (evt : evt_t) (hpq : pq_handle_t),
    invariant c hpq -> (10 <= fuel)%nat -> uxCount (mutex hpq) = 1 ->
    Z.of_nat n = size hpq -> size hpq <= uxCount (eventSemaphore hpq) ->
    exists (out : list pq_event_t) (evt' : evt_t) (hpq' : pq_handle_t),
      ao_led_loop c fuel tick spare junk n evt hpq
        = Returns (concat (map (led_on_and_off tick) out), evt', hpq') /\
      invariant c hpq' /\ size hpq' = 0 /\ uxCount (mutex hpq') = 1 /\
      uxCount (eventSemaphore hpq') = uxCount (eventSemaphore hpq) - size hpq /\
      out ≡ₚ occupied hpq /\ Sorted Z.ge (map (key c) out).
Proof.
  induction n as [|n IH]; intros evt hpq Hinv Hfuel Hfree Hlen Hsig.
  - exists [], evt, hpq. simpl. split_and!; try done; try lia; try constructor.
    unfold occupied. by rewrite <- Hlen.
  - rewrite ao_led_loop_S, (receive_into_as_receive _ _ _ _ _ low).
    destruct (receive_returns c fuel hpq low portMAX_DELAY) as (r & e & hpq1 & Hrecv);
      [done|done|lia|lia|].
    rewrite Hrecv. rewrite bind_Returns. cbv beta match zeta.
    apply receive_spec in Hrecv; [|done].
    destruct Hrecv
      as [(? & _)|[(_ & ? & _)|[(_ & _ & ? & _)|
          (_ & _ & Hpos & -> & -> & Hinv1 & Hs1 & Hm1 & He1 & Hp1)]]]; try lia.
    change (pdPASS =? pdPASS) with true.
    destruct (Z.ltb_spec 0 (size hpq)); [|lia].
    rewrite bind_Returns. cbv beta match zeta iota. simpl andb. cbv iota.
    change (evt_priority (received (cell hpq 0)))
      with (enum_value (priority (cell hpq 0))).
    rewrite info_at_enum_value, bind_Returns.
    destruct (IH (received (cell hpq 0)) hpq1)
      as (out & evt' & hpq' & -> & Hinv' & Hs' & Hm' & Hc' & Hp' & Hsorted);
      [done|done|by rewrite Hm1|lia|rewrite He1; simpl; lia|].
    exists (cell hpq 0 :: out), evt', hpq'. split_and!; try done.
    + rewrite Hc', He1, Hs1. simpl. lia.
    + by rewrite Hp', Hp1.
    + simpl. constructor; [done|].
      destruct out as [|o out]; simpl; constructor.
      assert (Ho : o ∈ occupied hpq).
      { rewrite <- Hp1, <- Hp'. apply list_elem_of_further, list_elem_of_here. }
      apply elem_of_occupied in Ho as (j & Hj & ->).
      destruct Hinv as (_ & _ & Hheap & _).
      pose proof (heap_order_root c hpq Hheap j Hj). unfold key_at in *. lia.
Qed.

(** When the queue holds a signal for each of its events and the mutex is
    free, the LED task, observed for as many receives as the queue has
    events, logs its start, switches one LED on and off for each event of
    the queue, in the order of the copy (highest priority first in
    [part_001], lowest first in [app_src]), and leaves the queue empty,
    whatever its local holds when it is declared: each receive writes the
    local before the task reads it. *)
Theorem ao_led_task_lights_by_priority (c : copy) (fuel : nat) (tick : Z)
  (spare : nat) (junk : nat -> Z) (hpq : pq_handle_t) :
  invariant c hpq -> (10 <= fuel)%nat -> uxCount (mutex hpq) = 1 ->
  size hpq <= uxCount (eventSemaphore hpq) ->
  exists (out : list pq_event_t) (evt' : evt_t) (hpq' : pq_handle_t),
    ao_led_ao_task_ c fuel tick spare junk (Z.to_nat (size hpq)) hpq
      = Returns (led_started :: led_waiting :: concat (map (led_on_and_off tick) out),
                 evt', hpq') /\
    size hpq' = 0 /\ out ≡ₚ occupied hpq /\ Sorted Z.ge (map (key c) out).
Proof.
  intros Hinv Hfuel Hfree Hsig.
  destruct (ao_led_loop_drains c fuel tick spare junk (Z.to_nat (size hpq))
              (indeterminate (junk (Z.to_nat (size hpq)))) hpq)
    as (out & evt' & hpq' & Hloop & _ & ? & _ & _ & ? & ?); try done.
  - destruct Hinv as (_ & [? _] & _). lia.
  - exists out, evt', hpq'. split; [|done].
    unfold ao_led_ao_task_. by rewrite Hloop.
Qed.

Lemma ao_led_task_lights_by_priority_witness :
  invariant part_001 (two_events part_001) /\
  exists (out : list pq_event_t) (evt' : evt_t) (hpq' : pq_handle_t),
    ao_led_ao_task_ part_001 10 1 0 sample_junk
        (Z.to_nat (size (two_events part_001))) (two_events part_001)
      = Returns (led_started :: led_waiting :: concat (map (led_on_and_off 1) out),
                 evt', hpq') /\
    size hpq' = 0 /\ out ≡ₚ occupied (two_events part_001) /\
    Sorted Z.ge (map (key part_001) out).
Proof.
  split; [apply invariant_two_events|].
  apply (ao_led_task_lights_by_priority part_001 10 1 0 sample_junk
           (two_events part_001)).
  - apply invariant_two_events.
  - lia.
  - reflexivity.
  - vm_compute. discriminate.
Defined.

(** In [app_src] the first receive of the LED task on a new queue returns
    [pdPASS] although no event was sent, and writes nothing to the local
    [evt] of the task, so that the task indexes [info] with the
    indeterminate value the local was declared with.  When that value is
    an index of the array, the task switches on and off the LED of that
    element, and the queue is still empty; when it is not, the access is
    outside the array. *)
Theorem app_src_led_task_lights_without_event (fuel : nat) (tick : Z) (spare : nat)
  (junk : nat -> Z) (block : nat -> pq_event_t) :
  exists hpq' : pq_handle_t,
    size hpq' = 0 /\ occupied hpq' = [] /\
    xPriorityQueueReceive_into app_src fuel (new_queue app_src block)
        (indeterminate (junk 1%nat)) received portMAX_DELAY
      = Returns (pdPASS, indeterminate (junk 1%nat), hpq') /\
    ao_led_ao_task_ app_src fuel tick spare junk 1 (new_queue app_src block)
      = if (0 <=? junk 1%nat) && (junk 1%nat <? info_length spare)
        then Returns (led_started :: led_waiting :: led_on_and_off_at tick (junk 1%nat),
                      indeterminate (junk 1%nat), hpq')
        else OutOfBounds.
Proof.
  eexists. split_and!; [| |reflexivity|].
  - reflexivity.
  - reflexivity.
  - unfold ao_led_ao_task_. rewrite ao_led_loop_S.
    change (xPriorityQueueReceive_into app_src fuel (new_queue app_src block)
              (indeterminate (junk 1%nat)) received portMAX_DELAY)
      with (Returns (pdPASS, indeterminate (junk 1%nat),
                     with_eventSemaphore (new_queue app_src block)
                       (taken (eventSemaphore (new_queue app_src block))))).
    rewrite bind_Returns. cbv beta match zeta.
    change (pdPASS =? pdPASS) with true. cbv iota.
    unfold info_at. simpl evt_priority.
    destruct ((0 <=? junk 1%nat) && (junk 1%nat <? info_length spare)); [|done].
    rewrite bind_Returns. simpl ao_led_loop. rewrite !bind_Returns.
    cbv beta match zeta. by rewrite app_nil_r.
Qed.

(** ** The task of ao_ui.c *)

(** One turn of the loop of the UI task. *)
Lemma ao_ui_loop_S (c : copy) (fuel : nat) (n : nat) (rcvEvt : ao_ui_message_t)
  (hqueue : QueueHandle_t) (hpq : pq_handle_t) :
  ao_ui_loop c fuel (S n) rcvEvt hqueue hpq =
    '(r, rcvEvt, hqueue) ← xQueueReceive hqueue rcvEvt portMAX_DELAY;
    '(sent, hpq) ← (if pdPASS =? r then ao_ui_switch c fuel rcvEvt hpq
                    else Returns ([], hpq));
    '(effects, hqueue, hpq) ← ao_ui_loop c fuel n rcvEvt hqueue hpq;
    Returns (ui_waiting :: sent ++ effects, hqueue, hpq).
Proof. reflexivity. Qed.

(** The switch of the UI task on a queue with room and a free mutex. *)
Lemma ao_ui_switch_stores (c : copy) (fuel : nat) (m : ao_ui_message_t)
  (hpq : pq_handle_t) :
  invariant c hpq -> (10 <= fuel)%nat -> uxCount (mutex hpq) = 1 ->
  size hpq + Z.of_nat (length (option_list (event_of_message m))) <= PQ_MAX_EVENT_SIZE ->
  exists (sent : list effect) (hpq' : pq_handle_t),
    ao_ui_switch c fuel m hpq = Returns (sent, hpq') /\
    invariant c hpq' /\ uxCount (mutex hpq') = 1 /\
    size hpq' = size hpq + Z.of_nat (length (option_list (event_of_message m))) /\
    uxCount (eventSemaphore hpq') =
      Z.min (uxCount (eventSemaphore hpq)
             + Z.of_nat (length (option_list (event_of_message m))))
            PQ_MAX_EVENT_SIZE /\
    occupied hpq' ≡ₚ option_list (event_of_message m) ++ occupied hpq.
Proof.
  intros Hinv Hfuel Hfree Hroom.
  destruct m as [| | |v]; simpl in Hroom; unfold ao_ui_switch.
  - destruct (ao_led_send_stores c fuel hpq {| priority := HIGH_PRIORITY |})
      as (hpq' & -> & ? & ? & ? & ? & ?); [done|done|done|lia|].
    simpl. by eexists _, hpq'.
  - destruct (ao_led_send_stores c fuel hpq {| priority := MEDIUM_PRIORITY |})
      as (hpq' & -> & ? & ? & ? & ? & ?); [done|done|done|lia|].
    simpl. by eexists _, hpq'.
  - destruct (ao_led_send_stores c fuel hpq {| priority := LOW_PRIORITY |})
      as (hpq' & -> & ? & ? & ? & ? & ?); [done|done|done|lia|].
    simpl. by eexists _, hpq'.
  - eexists _, hpq. split_and!; try done; simpl; [lia|].
    destruct Hinv as (_ & _ & _ & _ & [_ ?]). lia.
Qed.

(** [omap] on a list with a head. *)
Lemma omap_cons_option_list {A B : Type} (f : A -> option B) (x : A) (l : list A) :
  omap f (x :: l) = option_list (f x) ++ omap f l.
Proof. simpl. by destruct (f x). Qed.

(** The loop of the UI task on a mailbox whose events fit in the queue. *)
Lemma ao_ui_loop_forwards (c : copy) (fuel : nat) (msgs : list ao_ui_message_t) :
  forall (rcvEvt : ao_ui_message_t) (uxLen : Z) (hpq : pq_handle_t),
    invariant c hpq -> (10 <= fuel)%nat -> uxCount (mutex hpq) = 1 ->
    size hpq + Z.of_nat (length (omap event_of_message msgs)) <= PQ_MAX_EVENT_SIZE ->
    exists (effects : list effect) (hpq' : pq_handle_t),
      ao_ui_loop c fuel (length msgs) rcvEvt {| uxLength := uxLen; waiting := msgs |} hpq
        = Returns (effects, {| uxLength := uxLen; waiting := [] |}, hpq') /\
      invariant c hpq' /\ uxCount (mutex hpq') = 1 /\
      size hpq' = size hpq + Z.of_nat (length (omap event_of_message msgs)) /\
      uxCount (eventSemaphore hpq') =
        Z.min (uxCount (eventSemaphore hpq)
               + Z.of_nat (length (omap event_of_message msgs))) PQ_MAX_EVENT_SIZE /\
      occupied hpq' ≡ₚ omap event_of_message msgs ++ occupied hpq /\
      ao_ui_loop c fuel (S (length msgs)) rcvEvt
          {| uxLength := uxLen; waiting := msgs |} hpq = BlocksForever.
Proof.
  induction msgs as [|m msgs IH]; intros rcvEvt uxLen hpq Hinv Hfuel Hfree Hroom.
  - exists [], hpq. split_and!; try done; simpl; [lia|].
    destruct Hinv as (_ & _ & _ & _ & [_ ?]). lia.
  - rewrite omap_cons_option_list, length_app, Nat2Z.inj_add in Hroom.
    destruct (ao_ui_switch_stores c fuel m hpq Hinv Hfuel Hfree)
      as (sent & hpq1 & Hsw & Hinv1 & Hfree1 & Hsz1 & Hc1 & Hp1); [lia|].
    destruct (IH m uxLen hpq1)
      as (effects & hpq' & Hloop & Hinv' & Hfree' & Hsz' & Hc' & Hp' & Hblock);
      [done|done|done|lia|].
    change (length (m :: msgs)) with (S (length msgs)).
    rewrite omap_cons_option_list, length_app, Nat2Z.inj_add.
    eexists _, hpq'. split_and!; try done.
    + rewrite ao_ui_loop_S. unfold xQueueReceive. simpl waiting.
      cbv beta match zeta. rewrite bind_Returns. cbv beta match zeta.
      change (pdPASS =? pdPASS) with true. cbv beta match zeta.
      rewrite Hsw, bind_Returns. cbv beta match zeta. simpl uxLength.
      rewrite Hloop. reflexivity.
    + lia.
    + rewrite Hc', Hc1. lia.
    + rewrite Hp', Hp1. rewrite !(assoc (++)). f_equiv. apply Permutation_app_comm.
    + rewrite (ao_ui_loop_S c fuel (S (length msgs))). unfold xQueueReceive.
      simpl waiting.
      cbv beta match zeta. rewrite bind_Returns. cbv beta match zeta.
      change (pdPASS =? pdPASS) with true. cbv beta match zeta.
      rewrite Hsw, bind_Returns. cbv beta match zeta. simpl uxLength.
      by rewrite Hblock.
Qed.

(** When the events of the messages in the mailbox fit in the priority
    queue and its mutex is free, the UI task, observed for one turn for
    each message, empties the mailbox and adds to the queue one event for
    each Pulse, Short and Long message (High, Medium and Low), and none for
    a message it does not list; at the turn that follows it blocks on the
    empty mailbox. *)
Theorem ao_ui_task_forwards_the_mailbox (c : copy) (fuel : nat)
  (msgs : list ao_ui_message_t) (rcvEvt : ao_ui_message_t) (uxLen : Z)
  (hpq : pq_handle_t) :
  invariant c hpq -> (10 <= fuel)%nat -> uxCount (mutex hpq) = 1 ->
  size hpq + Z.of_nat (length (omap event_of_message msgs)) <= PQ_MAX_EVENT_SIZE ->
  exists (effects : list effect) (hpq' : pq_handle_t),
    ao_ui_ao_task_ c fuel (length msgs) rcvEvt
        {| uxLength := uxLen; waiting := msgs |} hpq
      = Returns (ui_started :: effects, {| uxLength := uxLen; waiting := [] |}, hpq') /\
    invariant c hpq' /\
    occupied hpq' ≡ₚ omap event_of_message msgs ++ occupied hpq /\
    ao_ui_ao_task_ c fuel (S (length msgs)) rcvEvt
        {| uxLength := uxLen; waiting := msgs |} hpq = BlocksForever.
Proof.
  intros Hinv Hfuel Hfree Hroom.
  destruct (ao_ui_loop_forwards c fuel msgs rcvEvt uxLen hpq)
    as (effects & hpq' & Hloop & ? & _ & _ & _ & ? & Hblock); [done..|].
  exists effects, hpq'. unfold ao_ui_ao_task_. by rewrite Hloop, Hblock.
Qed.

Lemma ao_ui_task_forwards_the_mailbox_witness :
  invariant part_001 (new_queue part_001 blank) /\
  exists (effects : list effect) (hpq' : pq_handle_t),
    ao_ui_ao_task_ part_001 10 (length sample_mailbox) AO_UI_MESSAGE_SHORT
        {| uxLength := 5; waiting := sample_mailbox |} (new_queue part_001 blank)
      = Returns (ui_started :: effects, {| uxLength := 5; waiting := [] |}, hpq') /\
    invariant part_001 hpq' /\
    occupied hpq' ≡ₚ omap event_of_message sample_mailbox
                      ++ occupied (new_queue part_001 blank) /\
    ao_ui_ao_task_ part_001 10 (S (length sample_mailbox)) AO_UI_MESSAGE_SHORT
        {| uxLength := 5; waiting := sample_mailbox |} (new_queue part_001 blank)
      = BlocksForever.
Proof.
  split; [apply invariant_new_queue|].
  apply (ao_ui_task_forwards_the_mailbox part_001 10 sample_mailbox
           AO_UI_MESSAGE_SHORT 5 (new_queue part_001 blank)).
  - apply invariant_new_queue.
  - lia.
  - reflexivity.
  - vm_compute. discriminate.
Defined.

(** The UI task does not look at the result of [ao_led_send]: on a full
    queue the event of a message is dropped and the queue is as it was,
    and the task logs the same line as on a new queue, where the event is
    stored. *)
Theorem ao_ui_task_cannot_tell_a_dropped_event (c : copy) (fuel : nat)
  (m : ao_ui_message_t) (hpq : pq_handle_t) (block : nat -> pq_event_t) :
  is_mutex (mutex hpq) -> size hpq = PQ_MAX_EVENT_SIZE -> (10 <= fuel)%nat ->
  exists (sent : list effect) (hpq1 : pq_handle_t),
    ao_ui_switch c fuel m hpq = Returns (sent, hpq) /\
    ao_ui_switch c fuel m (new_queue c block) = Returns (sent, hpq1) /\
    occupied hpq1 = option_list (event_of_message m).
Proof.
  intros Hm Hfull Hfuel.
  assert (Hsend : forall e, ao_led_send c fuel hpq e = Returns (false, hpq)).
  { intros e. unfold ao_led_send.
    assert (Hrun : xPriorityQueueSend c fuel hpq e 0 = Returns (pdFAIL, hpq)).
    { unfold xPriorityQueueSend.
      destruct (decide (0 < uxCount (mutex hpq))) as [Hfree|Hbusy].
      - rewrite take_available by done. simpl.
        destruct (Z.leb_spec PQ_MAX_EVENT_SIZE (size hpq)); [|lia].
        by rewrite give_taken_mutex, with_mutex_restore.
      - by rewrite take_expires by (done || lia). }
    by rewrite Hrun. }
  assert (Hnew : forall e, exists hpq1,
            ao_led_send c fuel (new_queue c block) e = Returns (true, hpq1) /\
            occupied hpq1 = [e]).
  { intros e.
    destruct (ao_led_send_stores c fuel (new_queue c block) e)
      as (hpq1 & Hrun & _ & _ & _ & _ & Hp); [apply invariant_new_queue|done|done|done|].
    exists hpq1. split; [done|].
    change (occupied (new_queue c block)) with (@nil pq_event_t) in Hp.
    by apply Permutation_singleton_r in Hp. }
  destruct m as [| | |v]; unfold ao_ui_switch; rewrite ?Hsend.
  - destruct (Hnew {| priority := HIGH_PRIORITY |}) as (hpq1 & -> & ?).
    by eexists _, hpq1.
  - destruct (Hnew {| priority := MEDIUM_PRIORITY |}) as (hpq1 & -> & ?).
    by eexists _, hpq1.
  - destruct (Hnew {| priority := LOW_PRIORITY |}) as (hpq1 & -> & ?).
    by eexists _, hpq1.
  - by eexists _, _.
Qed.

Lemma ao_ui_task_cannot_tell_a_dropped_event_witness :
  is_mutex (mutex (full_queue part_001)) /\
  size (full_queue part_001) = PQ_MAX_EVENT_SIZE /\
  exists (sent : list effect) (hpq1 : pq_handle_t),
    ao_ui_switch part_001 10 AO_UI_MESSAGE_PULSE (full_queue part_001)
      = Returns (sent, full_queue part_001) /\
    ao_ui_switch part_001 10 AO_UI_MESSAGE_PULSE (new_queue part_001 blank)
      = Returns (sent, hpq1) /\
    occupied hpq1 = option_list (event_of_message AO_UI_MESSAGE_PULSE).
Proof.
  assert (Hm : is_mutex (mutex (full_queue part_001)))
    by (vm_compute; intuition discriminate).
  split; [exact Hm|]. split; [reflexivity|].
  apply (ao_ui_task_cannot_tell_a_dropped_event part_001 10 AO_UI_MESSAGE_PULSE
           (full_queue part_001) blank Hm); [reflexivity|lia].
Defined.

(** ** From ao_ui_send to the LEDs *)

(** Posting to a mailbox with room for [room] messages more. *)
Lemma post_all_room (msgs : list ao_ui_message_t) :
  forall (q : QueueHandle_t) (room : nat),
    Z.of_nat (length (waiting q)) + Z.of_nat room = uxLength q ->
    post_all q msgs
      = Returns (map (fun _ => true) (take room msgs)
                 ++ map (fun _ => false) (drop room msgs),
                 {| uxLength := uxLength q; waiting := waiting q ++ take room msgs |}).
Proof.
  induction msgs as [|m msgs IH]; intros q room Hroom.
  - rewrite take_nil, drop_nil. simpl. rewrite app_nil_r. by destruct q.
  - change (post_all q (m :: msgs)) with
      ('(b, hqueue) ← ao_ui_send q m;
       '(bs, hqueue) ← post_all hqueue msgs;
       Returns (b :: bs, hqueue)).
    unfold ao_ui_send, xQueueSend.
    destruct room as [|room].
    + destruct (Z.ltb_spec (Z.of_nat (length (waiting q))) (uxLength q)); [lia|].
      change (0 =? portMAX_DELAY) with false. cbv iota.
      repeat (rewrite bind_Returns; cbv beta match zeta).
      rewrite (IH q 0%nat Hroom), bind_Returns. cbv beta match zeta.
      by rewrite !take_0, !drop_0.
    + destruct (Z.ltb_spec (Z.of_nat (length (waiting q))) (uxLength q)); [|lia].
      repeat (rewrite bind_Returns; cbv beta match zeta).
      rewrite (IH _ room); [|simpl; rewrite length_app; simpl; lia].
      rewrite bind_Returns. cbv beta match zeta. simpl uxLength. simpl waiting.
      change (pdPASS =? pdPASS) with true.
      by rewrite <- (assoc (++)).
Qed.

(** [ao_ui_send] never waits: of the messages posted to the new mailbox
    before the UI task runs, the first [QUEUE_AO_UI_LENGTH_] are accepted
    and kept in their order, and every later one is refused with [false]
    and lost. *)
Theorem ao_ui_send_keeps_the_first_five (msgs : list ao_ui_message_t) :
  post_all (xQueueCreate QUEUE_AO_UI_LENGTH_) msgs
    = Returns (map (fun _ => true) (take 5 msgs) ++ map (fun _ => false) (drop 5 msgs),
               {| uxLength := QUEUE_AO_UI_LENGTH_; waiting := take 5 msgs |}).
Proof. by rewrite (post_all_room msgs (xQueueCreate QUEUE_AO_UI_LENGTH_) 5). Qed.

(** Messages that fit in the mailbox are all accepted, in their order. *)
Lemma post_all_fits (msgs : list ao_ui_message_t) :
  forall q : QueueHandle_t,
    Z.of_nat (length (waiting q)) + Z.of_nat (length msgs) <= uxLength q ->
    post_all q msgs
      = Returns (map (fun _ => true) msgs,
                 {| uxLength := uxLength q; waiting := waiting q ++ msgs |}).
Proof.
  induction msgs as [|m msgs IH]; intros q Hfit; simpl.
  - rewrite app_nil_r. by destruct q.
  - simpl in Hfit. unfold ao_ui_send, xQueueSend.
    destruct (Z.ltb_spec (Z.of_nat (length (waiting q))) (uxLength q)); [|lia].
    simpl. rewrite IH; simpl; [|rewrite length_app; simpl; lia].
    by rewrite <- (assoc (++)).
Qed.

(** At most [QUEUE_AO_UI_LENGTH_] messages posted with [ao_ui_send] to the
    new mailbox are all accepted; the UI task then forwards them to the new
    priority queue, and the LED task switches one LED on and off for each
    message that is listed, in the order of the copy, and leaves the queue
    empty. *)
Theorem posted_messages_reach_the_leds (c : copy) (fuel : nat) (tick : Z)
  (spare : nat) (junk : nat -> Z)
  (msgs : list ao_ui_message_t) (block : nat -> pq_event_t)
  (rcvEvt : ao_ui_message_t) :
  (10 <= fuel)%nat -> (length msgs <= 5)%nat ->
  exists (ui_effects : list effect) (hpq1 : pq_handle_t) (out : list pq_event_t)
         (evt' : evt_t) (hpq2 : pq_handle_t),
    post_all (xQueueCreate QUEUE_AO_UI_LENGTH_) msgs
      = Returns (map (fun _ => true) msgs,
                 {| uxLength := QUEUE_AO_UI_LENGTH_; waiting := msgs |}) /\
    ao_ui_ao_task_ c fuel (length msgs) rcvEvt
        {| uxLength := QUEUE_AO_UI_LENGTH_; waiting := msgs |} (new_queue c block)
      = Returns (ui_started :: ui_effects,
                 {| uxLength := QUEUE_AO_UI_LENGTH_; waiting := [] |}, hpq1) /\
    ao_led_ao_task_ c fuel tick spare junk (length (omap event_of_message msgs)) hpq1
      = Returns (led_started :: led_waiting :: concat (map (led_on_and_off tick) out),
                 evt', hpq2) /\
    out ≡ₚ omap event_of_message msgs /\
    Sorted Z.ge (map (key c) out) /\ size hpq2 = 0.
Proof.
  intros Hfuel Hlen.
  assert (Hle : (length (omap event_of_message msgs) <= length msgs)%nat).
  { clear. induction msgs as [|m msgs IH]; [done|].
    rewrite omap_cons_option_list, length_app.
    destruct (event_of_message m); simpl; lia. }
  destruct (ao_ui_loop_forwards c fuel msgs rcvEvt QUEUE_AO_UI_LENGTH_
              (new_queue c block))
    as (ui_effects & hpq1 & Hui & Hinv1 & Hfree1 & Hsz1 & Hc1 & Hp1 & _);
    [apply invariant_new_queue|done|done| |].
  { change (size (new_queue c block)) with 0. unfold PQ_MAX_EVENT_SIZE. lia. }
  change (size (new_queue c block)) with 0 in Hsz1.
  change (uxCount (eventSemaphore (new_queue c block))) with (initial_count c) in Hc1.
  change (occupied (new_queue c block)) with (@nil pq_event_t) in Hp1.
  rewrite app_nil_r in Hp1.
  destruct (ao_led_loop_drains c fuel tick spare junk
              (length (omap event_of_message msgs))
              (indeterminate (junk (length (omap event_of_message msgs)))) hpq1)
    as (out & evt' & hpq2 & Hled & _ & Hs2 & _ & _ & Hp2 & Hsorted);
    [done|done|done|lia| |].
  { rewrite Hc1, Hsz1. unfold initial_count, PQ_MAX_EVENT_SIZE. destruct c; lia. }
  exists ui_effects, hpq1, out, evt', hpq2. split_and!; try done.
  - rewrite post_all_fits; [done|]. unfold QUEUE_AO_UI_LENGTH_. simpl. lia.
  - unfold ao_ui_ao_task_. by rewrite Hui.
  - unfold ao_led_ao_task_. by rewrite Hled.
  - by rewrite Hp2.
Qed.

Lemma posted_messages_reach_the_leds_witness :
  exists (ui_effects : list effect) (hpq1 : pq_handle_t) (out : list pq_event_t)
         (evt' : evt_t) (hpq2 : pq_handle_t),
    post_all (xQueueCreate QUEUE_AO_UI_LENGTH_) sample_mailbox
      = Returns (map (fun _ => true) sample_mailbox,
                 {| uxLength := QUEUE_AO_UI_LENGTH_; waiting := sample_mailbox |}) /\
    ao_ui_ao_task_ part_001 10 (length sample_mailbox) AO_UI_MESSAGE_SHORT
        {| uxLength := QUEUE_AO_UI_LENGTH_; waiting := sample_mailbox |}
        (new_queue part_001 blank)
      = Returns (ui_started :: ui_effects,
                 {| uxLength := QUEUE_AO_UI_LENGTH_; waiting := [] |}, hpq1) /\
    ao_led_ao_task_ part_001 10 1 0 sample_junk
        (length (omap event_of_message sample_mailbox)) hpq1
      = Returns (led_started :: led_waiting :: concat (map (led_on_and_off 1) out),
                 evt', hpq2) /\
    out ≡ₚ omap event_of_message sample_mailbox /\
    Sorted Z.ge (map (key part_001) out) /\ size hpq2 = 0.
Proof.
  apply (posted_messages_reach_the_leds part_001 10 1 0 sample_junk sample_mailbox
           blank AO_UI_MESSAGE_SHORT).
  - lia.
  - simpl. lia.
Defined.
